(** * kernel/bpf/cgroup.c: eBPF programs attached to cgroups

    A shallow embedding of the attach/detach engine ([__cgroup_bpf_update]),
    the inheritance hook ([cgroup_bpf_inherit]), the helpers that compute
    chains of programs over the ancestors of a cgroup
    ([prog_list_length], [hierarchy_allows_attach],
    [compute_effective_progs]) and the three hook runners
    ([__cgroup_bpf_run_filter_skb], [__cgroup_bpf_run_filter_sk],
    [__cgroup_bpf_run_filter_sock_ops]).

    [activate_effective_progs] only exchanges a pointer and leaves the old
    array to be freed after a grace period; it has nothing sequential to
    model and is left out.

    Pointers to [struct cgroup] and [struct bpf_prog] are natural numbers,
    a NULL program pointer is [None].  The per-cgroup [struct cgroup_bpf]
    lives in a store indexed by cgroup; arrays indexed by
    [enum bpf_attach_type] are functions of the attach type.  The cgroup
    hierarchy itself (parent pointers, pre-order walk of the descendants)
    belongs to the cgroup core; it is represented by a tree of cgroup
    pointers from which both [cgroup_parent] and the pre-order walk are
    derived. *)

From Stdlib Require Import ZArith Bool Lia.
From stdpp Require Import base option list functions numbers.
Import ListNotations.

Local Open Scope Z_scope.

(** ** Data model *)

Definition cgroup := nat.
Definition bpf_prog := nat.
Definition attach_type := nat.

(** Error numbers the file returns (negated) and the [int] result of the
    functions that return [0] or [-errno]. *)
Inductive errno := EPERM | ENOENT | ENOMEM.

Inductive retcode :=
| Ret0
| RetErr (e : errno).

(** [struct bpf_prog_list]: one entry of [bpf.progs[type]]; the program
    pointer of an entry may be NULL. *)
Record bpf_prog_list := { pl_prog : option bpf_prog }.

(** [struct cgroup_bpf], with the members this file reads or writes. *)
Module bpf.
Record cgroup_bpf := {
  prog : attach_type -> option bpf_prog;
  effective : attach_type -> option bpf_prog;
  disallow_override : attach_type -> bool;
  progs : attach_type -> list bpf_prog_list;
  flags : attach_type -> Z
}.

Definition set_prog (b : cgroup_bpf) (type : attach_type) (p : option bpf_prog) :=
  {| prog := <[type := p]> (prog b);
     effective := effective b;
     disallow_override := disallow_override b;
     progs := progs b;
     flags := flags b |}.

Definition set_effective (b : cgroup_bpf) (type : attach_type) (e : option bpf_prog) :=
  {| prog := prog b;
     effective := <[type := e]> (effective b);
     disallow_override := disallow_override b;
     progs := progs b;
     flags := flags b |}.

Definition set_disallow_override (b : cgroup_bpf) (type : attach_type) (v : bool) :=
  {| prog := prog b;
     effective := effective b;
     disallow_override := <[type := v]> (disallow_override b);
     progs := progs b;
     flags := flags b |}.
End bpf.

(** The cgroup store, the static key [cgroup_bpf_enabled_key] (as its
    count) and the programs handed to [bpf_prog_put], latest first. *)
Record state := {
  cgrp_bpf : cgroup -> bpf.cgroup_bpf;
  cgroup_bpf_enabled_key : Z;
  bpf_prog_put : list bpf_prog
}.

Definition non_null {A} (p : option A) : bool :=
  match p with Some _ => true | None => false end.

(** ** The cgroup hierarchy *)

Local Unset Elimination Schemes.
Inductive css_tree := Css (self : cgroup) (children : list css_tree).
Local Set Elimination Schemes.

Definition css_self (t : css_tree) : cgroup :=
  match t with Css c _ => c end.

Definition css_children (t : css_tree) : list css_tree :=
  match t with Css _ ch => ch end.

Definition first_some {A B} (f : A -> option B) : list A -> option B :=
  fix go l :=
    match l with
    | [] => None
    | x :: l' => match f x with Some y => Some y | None => go l' end
    end.

(** All cgroups of a hierarchy, in pre-order. *)
Fixpoint css_nodes (t : css_tree) : list cgroup :=
  match t with
  | Css c ch => c :: flat_map css_nodes ch
  end.

(** Looking a cgroup up in a hierarchy gives the subtree rooted at it and
    its ancestors, nearest first; [above] are the ancestors of [t]. *)
Fixpoint css_locate (above : list cgroup) (t : css_tree) (c : cgroup)
  : option (list cgroup * css_tree) :=
  match t with
  | Css d ch =>
      if decide (d = c) then Some (above, t)
      else first_some (fun t' => css_locate (d :: above) t' c) ch
  end.

(** What [css_for_each_descendant_pre(pos, &cgrp->self)] walks: the cgroup
    itself and below it the part of the hierarchy rooted there. *)
Definition css_descendants (h : css_tree) (c : cgroup) : css_tree :=
  match css_locate [] h c with
  | Some (_, t) => t
  | None => Css c []
  end.

(** The ancestors of a cgroup, nearest first: [cgroup_parent(c)],
    [cgroup_parent(cgroup_parent(c))], ... up to the root. *)
Definition cgroup_ancestors (h : css_tree) (c : cgroup) : list cgroup :=
  match css_locate [] h c with
  | Some (above, _) => above
  | None => []
  end.

Definition cgroup_parent (h : css_tree) (c : cgroup) : option cgroup :=
  head (cgroup_ancestors h c).

(** [t'] is [t] or a subtree below it. *)
Inductive css_sub (t' : css_tree) : css_tree -> Prop :=
| css_sub_refl : css_sub t' t'
| css_sub_child c ch t : t ∈ ch -> css_sub t' t -> css_sub t' (Css c ch).

(** [t'] occurs in [t] with the ancestors [above'], when the ancestors of
    [t] are [above]. *)
Inductive css_at (t' : css_tree) (above' : list cgroup)
  : list cgroup -> css_tree -> Prop :=
| css_at_here : css_at t' above' above' t'
| css_at_child above c ch t :
    t ∈ ch -> css_at t' above' (c :: above) t -> css_at t' above' above (Css c ch).

(** ** [__cgroup_bpf_update] *)

(** The body of the descendant loop, with the subtree skip of
    [css_rightmost_descendant]: a descendant other than [cgrp] that has a
    program of its own is left alone together with everything below it;
    any other visited cgroup gets [effective] and [!overridable]. *)
Fixpoint css_walk (cgrp : cgroup) (type : attach_type)
    (effective : option bpf_prog) (overridable : bool)
    (pos : css_tree) (cg : cgroup -> bpf.cgroup_bpf) : cgroup -> bpf.cgroup_bpf :=
  match pos with
  | Css desc ch =>
      if non_null (bpf.prog (cg desc) type) && negb (bool_decide (desc = cgrp))
      then cg
      else
        let b := bpf.set_effective (cg desc) type effective in
        let b := bpf.set_disallow_override b type (negb overridable) in
        fold_left (fun cg' t' => css_walk cgrp type effective overridable t' cg')
                  ch (<[desc := b]> cg)
  end.

Definition __cgroup_bpf_update (h : css_tree) (s : state)
    (cgrp : cgroup) (parent : option cgroup) (prog : option bpf_prog)
    (type : attach_type) (new_overridable : bool) : retcode * state :=
  let overridable :=
    match parent with
    | Some p => negb (bpf.disallow_override (cgrp_bpf s p) type)
    | None => true
    end in
  let effective :=
    match parent with
    | Some p => bpf.effective (cgrp_bpf s p) type
    | None => None
    end in
  if non_null prog && non_null effective && negb overridable then
    (RetErr EPERM, s)
  else if non_null prog && non_null effective
          && negb (eqb overridable new_overridable) then
    (RetErr EPERM, s)
  else
    let old_prog := bpf.prog (cgrp_bpf s cgrp) type in
    let overridable := if non_null prog then new_overridable else overridable in
    let effective := if non_null prog then prog else effective in
    if non_null prog && non_null old_prog
       && eqb (bpf.disallow_override (cgrp_bpf s cgrp) type) new_overridable then
      (RetErr EPERM, s)
    else if negb (non_null prog) && negb (non_null old_prog) then
      (RetErr ENOENT, s)
    else
      let cg := <[cgrp := bpf.set_prog (cgrp_bpf s cgrp) type prog]> (cgrp_bpf s) in
      let cg := css_walk cgrp type effective overridable (css_descendants h cgrp) cg in
      let key := cgroup_bpf_enabled_key s in
      let key := if non_null prog then key + 1 else key in
      let put := bpf_prog_put s in
      (Ret0,
       match old_prog with
       | Some old => {| cgrp_bpf := cg; cgroup_bpf_enabled_key := key - 1;
                        bpf_prog_put := old :: put |}
       | None => {| cgrp_bpf := cg; cgroup_bpf_enabled_key := key;
                    bpf_prog_put := put |}
       end).

(** ** [cgroup_bpf_put] and [cgroup_bpf_inherit]

    Both loop over the attach types [0 .. ARRAY_SIZE-1]; the array size
    ([MAX_BPF_ATTACH_TYPE]) comes from the headers and is an argument. *)

Definition cgroup_bpf_put (ARRAY_SIZE : nat) (s : state) (cgrp : cgroup) : state :=
  fold_left
    (fun s type =>
       match bpf.prog (cgrp_bpf s cgrp) type with
       | Some prog =>
           {| cgrp_bpf := cgrp_bpf s;
              cgroup_bpf_enabled_key := cgroup_bpf_enabled_key s - 1;
              bpf_prog_put := prog :: bpf_prog_put s |}
       | None => s
       end)
    (seq 0 ARRAY_SIZE) s.

(** The body of the loop of [cgroup_bpf_inherit] for one attach type. *)
Definition cgroup_bpf_inherit_type (cg : cgroup -> bpf.cgroup_bpf)
    (cgrp parent : cgroup) (type : attach_type) : cgroup -> bpf.cgroup_bpf :=
  let e := bpf.effective (cg parent) type in
  let cg := <[cgrp := bpf.set_effective (cg cgrp) type e]> cg in
  <[cgrp := bpf.set_disallow_override (cg cgrp) type
              (bpf.disallow_override (cg parent) type)]> cg.

Definition cgroup_bpf_inherit (ARRAY_SIZE : nat) (cg : cgroup -> bpf.cgroup_bpf)
    (cgrp parent : cgroup) : cgroup -> bpf.cgroup_bpf :=
  fold_left (fun cg type => cgroup_bpf_inherit_type cg cgrp parent type)
            (seq 0 ARRAY_SIZE) cg.

(** ** Fixed-width integers *)

Definition to_u32 (z : Z) : Z := z mod 2 ^ 32.
Definition to_int (z : Z) : Z := (z + 2 ^ 31) mod 2 ^ 32 - 2 ^ 31.

(** ** [prog_list_length] *)

(** The [u32] counter is bumped for every entry whose program is set. *)
Definition prog_list_length (head : list bpf_prog_list) : Z :=
  fold_left
    (fun cnt pl => if non_null (pl_prog pl) then to_u32 (cnt + 1) else cnt)
    head 0.

(** The programs of a list, entries without a program left out. *)
Fixpoint prog_list_progs (head : list bpf_prog_list) : list bpf_prog :=
  match head with
  | [] => []
  | pl :: head' =>
      match pl_prog pl with
      | Some prog => prog :: prog_list_progs head'
      | None => prog_list_progs head'
      end
  end.

(** ** Helpers over the ancestors *)

Section AttachFlags.
(** The two flag bits of [bpf.flags[type]], from the uapi header. *)
Variables BPF_F_ALLOW_OVERRIDE BPF_F_ALLOW_MULTI : Z.

Definition flag_set (flags mask : Z) : bool :=
  negb (Z.land flags mask =? 0).

(** The [do ... while (p)] loop of [hierarchy_allows_attach], over
    [p = cgroup_parent(cgrp)], [cgroup_parent(p)], ... *)
Fixpoint hierarchy_allows_attach_loop (cg : cgroup -> bpf.cgroup_bpf)
    (type : attach_type) (ps : list cgroup) : bool :=
  match ps with
  | [] => true
  | p :: ps' =>
      let flags := bpf.flags (cg p) type in
      if flag_set flags BPF_F_ALLOW_MULTI then true
      else
        let cnt := prog_list_length (bpf.progs (cg p) type) in
        if cnt =? 1 then flag_set flags BPF_F_ALLOW_OVERRIDE
        else hierarchy_allows_attach_loop cg type ps'
  end.

Definition hierarchy_allows_attach (h : css_tree) (cg : cgroup -> bpf.cgroup_bpf)
    (cgrp : cgroup) (type : attach_type) (new_flags : Z) : bool :=
  match cgroup_parent h cgrp with
  | None => true
  | Some _ => hierarchy_allows_attach_loop cg type (cgroup_ancestors h cgrp)
  end.

(** First loop of [compute_effective_progs]: count. *)
Fixpoint count_effective (cg : cgroup -> bpf.cgroup_bpf) (type : attach_type)
    (ps : list cgroup) (cnt : Z) : Z :=
  match ps with
  | [] => cnt
  | p :: ps' =>
      let cnt :=
        if (cnt =? 0) || flag_set (bpf.flags (cg p) type) BPF_F_ALLOW_MULTI
        then to_int (cnt + prog_list_length (bpf.progs (cg p) type))
        else cnt in
      count_effective cg type ps' cnt
  end.

(** [progs->progs[cnt++] = pl->prog] for the entries of one list; a
    store outside the allocated array is a fault ([None]). *)
Fixpoint populate_list (head : list bpf_prog_list)
    (progs : list (option bpf_prog)) (cnt : Z)
  : option (list (option bpf_prog) * Z) :=
  match head with
  | [] => Some (progs, cnt)
  | pl :: head' =>
      match pl_prog pl with
      | None => populate_list head' progs cnt
      | Some prog =>
          if (0 <=? cnt) && (cnt <? Z.of_nat (length progs)) then
            populate_list head' (<[Z.to_nat cnt := Some prog]> progs)
                          (to_int (cnt + 1))
          else None
      end
  end.

(** Second loop of [compute_effective_progs]: populate. *)
Fixpoint populate_effective (cg : cgroup -> bpf.cgroup_bpf) (type : attach_type)
    (ps : list cgroup) (progs : list (option bpf_prog)) (cnt : Z)
  : option (list (option bpf_prog) * Z) :=
  match ps with
  | [] => Some (progs, cnt)
  | p :: ps' =>
      if (cnt =? 0) || flag_set (bpf.flags (cg p) type) BPF_F_ALLOW_MULTI
      then
        match populate_list (bpf.progs (cg p) type) progs cnt with
        | Some (progs, cnt) => populate_effective cg type ps' progs cnt
        | None => None
        end
      else populate_effective cg type ps' progs cnt
  end.

(** Modelled from the spec: [bpf_prog_array_alloc], which is defined
    elsewhere in the kernel.  It returns a freshly allocated array of
    exactly the requested capacity, every slot empty, or fails. *)
Definition bpf_prog_array_alloc (may_alloc : bool) (prog_cnt : Z)
  : option (list (option bpf_prog)) :=
  if may_alloc then Some (replicate (Z.to_nat (to_u32 prog_cnt)) None)
  else None.

(** [compute_effective_progs]: [None] is a fault (a store outside the
    array), otherwise the return value and what [*array] was set to. *)
Definition compute_effective_progs (may_alloc : bool) (h : css_tree)
    (cg : cgroup -> bpf.cgroup_bpf) (cgrp : cgroup) (type : attach_type)
  : option (retcode * option (list (option bpf_prog))) :=
  let walk := cgrp :: cgroup_ancestors h cgrp in
  let cnt := count_effective cg type walk 0 in
  match bpf_prog_array_alloc may_alloc cnt with
  | None => Some (RetErr ENOMEM, None)
  | Some progs =>
      match populate_effective cg type walk progs 0 with
      | Some (progs, _) => Some (Ret0, Some progs)
      | None => None
      end
  end.
End AttachFlags.

(** ** The hook runners *)

(** [struct sock], with what the runners look at: the address family,
    whether [sk_fullsock] holds, and the cgroup of [sk_cgrp_data]. *)
Record sock := {
  sk_family : Z;
  sk_fullsock : bool;
  sock_cgroup_ptr : cgroup
}.

(** [struct sk_buff]: the owning socket, the data pointer, the length and
    the network header, the pointers as offsets from [skb->head]. *)
Record sk_buff := {
  skb_sk : option sock;
  skb_data : Z;
  skb_len : Z;
  skb_network_header : Z
}.

Definition __skb_push (skb : sk_buff) (len : Z) : sk_buff :=
  {| skb_sk := skb_sk skb;
     skb_data := skb_data skb - len;
     skb_len := to_u32 (skb_len skb + len);
     skb_network_header := skb_network_header skb |}.

Definition __skb_pull (skb : sk_buff) (len : Z) : sk_buff :=
  {| skb_sk := skb_sk skb;
     skb_data := skb_data skb + len;
     skb_len := to_u32 (skb_len skb - len);
     skb_network_header := skb_network_header skb |}.

Definition skb_set_sk (skb : sk_buff) (sk : option sock) : sk_buff :=
  {| skb_sk := sk;
     skb_data := skb_data skb;
     skb_len := skb_len skb;
     skb_network_header := skb_network_header skb |}.

Section Runners.
(** Address families, from the socket headers. *)
Variables AF_INET AF_INET6 : Z.
(** Running one program against a context gives its [u32] result. *)
Context {sock_ops : Type}.
Variable bpf_prog_run_save_cb : bpf_prog -> sk_buff -> Z.
Variable BPF_PROG_RUN_sk : bpf_prog -> sock -> Z.
Variable BPF_PROG_RUN_sock_ops : bpf_prog -> sock_ops -> Z.

(** Each runner gives its return value and the programs it ran, in the
    order it ran them; the skb runner also gives the skb it leaves. *)
Definition __cgroup_bpf_run_filter_skb (cg : cgroup -> bpf.cgroup_bpf)
    (sk : option sock) (skb : sk_buff) (type : attach_type)
  : retcode * list bpf_prog * sk_buff :=
  match sk with
  | None => (Ret0, [], skb)
  | Some sk =>
      if negb (sk_fullsock sk) then (Ret0, [], skb)
      else if negb (sk_family sk =? AF_INET) && negb (sk_family sk =? AF_INET6)
      then (Ret0, [], skb)
      else
        let cgrp := sock_cgroup_ptr sk in
        match bpf.effective (cg cgrp) type with
        | Some prog =>
            let offset := to_u32 (skb_data skb - skb_network_header skb) in
            let save_sk := skb_sk skb in
            let skb := skb_set_sk skb (Some sk) in
            let skb := __skb_push skb offset in
            let ret :=
              if bpf_prog_run_save_cb prog skb =? 1 then Ret0
              else RetErr EPERM in
            let skb := __skb_pull skb offset in
            let skb := skb_set_sk skb save_sk in
            (ret, [prog], skb)
        | None => (Ret0, [], skb)
        end
  end.

Definition __cgroup_bpf_run_filter_sk (cg : cgroup -> bpf.cgroup_bpf)
    (sk : sock) (type : attach_type) : retcode * list bpf_prog :=
  let cgrp := sock_cgroup_ptr sk in
  match bpf.effective (cg cgrp) type with
  | Some prog =>
      (if BPF_PROG_RUN_sk prog sk =? 1 then Ret0 else RetErr EPERM, [prog])
  | None => (Ret0, [])
  end.

Definition __cgroup_bpf_run_filter_sock_ops (cg : cgroup -> bpf.cgroup_bpf)
    (sk : sock) (ops : sock_ops) (type : attach_type)
  : retcode * list bpf_prog :=
  let cgrp := sock_cgroup_ptr sk in
  match bpf.effective (cg cgrp) type with
  | Some prog =>
      (if BPF_PROG_RUN_sock_ops prog ops =? 1 then Ret0 else RetErr EPERM,
       [prog])
  | None => (Ret0, [])
  end.
End Runners.

(** ** Auxiliary definitions for the statements *)

(** The cgroups the descendant walk of an update at [cgrp] assigns to:
    the visited cgroups that are not skipped.  [own c] tells whether [c]
    has a program of its own for the attach type. *)
Fixpoint css_reached (own : cgroup -> bool) (cgrp : cgroup) (pos : css_tree)
  : list cgroup :=
  match pos with
  | Css desc ch =>
      if own desc && negb (bool_decide (desc = cgrp)) then []
      else desc :: flat_map (css_reached own cgrp) ch
  end.

Definition has_prog (cg : cgroup -> bpf.cgroup_bpf) (type : attach_type)
    (c : cgroup) : bool :=
  non_null (bpf.prog (cg c) type).

(** [cg'] is [cg] after [effective[type] = e] and
    [disallow_override[type] = d] were stored in the cgroups of [R] and
    nothing else was touched. *)
Definition assigned (type : attach_type) (e : option bpf_prog) (d : bool)
    (R : list cgroup) (cg cg' : cgroup -> bpf.cgroup_bpf) : Prop :=
  (forall c, c ∉ R -> cg' c = cg c) /\
  (forall c, c ∈ R ->
     bpf.effective (cg' c) type = e /\ bpf.disallow_override (cg' c) type = d) /\
  (forall c t,
     bpf.prog (cg' c) t = bpf.prog (cg c) t /\
     bpf.progs (cg' c) t = bpf.progs (cg c) t /\
     bpf.flags (cg' c) t = bpf.flags (cg c) t) /\
  (forall c t, t <> type ->
     bpf.effective (cg' c) t = bpf.effective (cg c) t /\
     bpf.disallow_override (cg' c) t = bpf.disallow_override (cg c) t).

(** Induction over a hierarchy, the children taken together. *)
Section css_tree_ind.
Variable P : css_tree -> Prop.
Hypothesis Hnode : forall c ch, Forall P ch -> P (Css c ch).

Fixpoint css_tree_ind (t : css_tree) : P t :=
  match t with
  | Css c ch =>
      Hnode c ch
        ((fix go (l : list css_tree) : Forall P l :=
            match l with
            | [] => Forall_nil P
            | t' :: l' => Forall_cons P t' l' (css_tree_ind t') (go l')
            end) ch)
  end.
End css_tree_ind.

(** The value an update stores in [effective[type]] of the cgroups it
    reaches, and the overridability whose negation it stores in their
    [disallow_override[type]]: on attach the new program and the requested
    mode, on detach what the parent has (nothing, overridable, at the
    root). *)
Definition update_effective (s : state) (parent : option cgroup)
    (prog : option bpf_prog) (type : attach_type) : option bpf_prog :=
  match prog, parent with
  | Some p, _ => Some p
  | None, Some pa => bpf.effective (cgrp_bpf s pa) type
  | None, None => None
  end.

Definition update_overridable (s : state) (parent : option cgroup)
    (prog : option bpf_prog) (type : attach_type) (new_overridable : bool) : bool :=
  match prog, parent with
  | Some _, _ => new_overridable
  | None, Some pa => negb (bpf.disallow_override (cgrp_bpf s pa) type)
  | None, None => true
  end.

(** The cgroups an update at [cgrp] reaches in state [s]. *)
Definition update_reached (h : css_tree) (s : state) (cgrp : cgroup)
    (type : attach_type) : list cgroup :=
  css_reached (has_prog (cgrp_bpf s) type) cgrp (css_descendants h cgrp).

(** ** A small hierarchy

    Cgroup [0] is the root, [1] and [3] are its children and [2] is the
    child of [1]; nothing is attached anywhere. *)
Definition bpf_none : bpf.cgroup_bpf :=
  {| bpf.prog := fun _ => None;
     bpf.effective := fun _ => None;
     bpf.disallow_override := fun _ => false;
     bpf.progs := fun _ => [];
     bpf.flags := fun _ => 0 |}.

Definition state_none : state :=
  {| cgrp_bpf := fun _ => bpf_none;
     cgroup_bpf_enabled_key := 0;
     bpf_prog_put := [] |}.

Definition hier4 : css_tree :=
  Css 0%nat [Css 1%nat [Css 2%nat []]; Css 3%nat []].

(** The mode of the attachment a cgroup holds for an attach type:
    [disallow_override[type]] keeps the negation of the overridability the
    program was attached with. *)
Definition attached_overridable (s : state) (cgrp : cgroup)
    (type : attach_type) : bool :=
  negb (bpf.disallow_override (cgrp_bpf s cgrp) type).

(** Program [12] attached to cgroup [1] of the small hierarchy,
    overridable; then program [11] attached to the root, not
    overridable. *)
Definition state_child : state :=
  snd (__cgroup_bpf_update hier4 state_none 1%nat (Some 0%nat) (Some 12%nat)
                           0%nat true).

Definition state_child_root : state :=
  snd (__cgroup_bpf_update hier4 state_child 0%nat None (Some 11%nat)
                           0%nat false).

(** Every cgroup without a program of its own has the [effective[type]]
    of its parent. *)
Definition inherits_from_parent (h : css_tree) (type : attach_type)
    (cg : cgroup -> bpf.cgroup_bpf) : Prop :=
  forall c p, cgroup_parent h c = Some p -> bpf.prog (cg c) type = None ->
    bpf.effective (cg c) type = bpf.effective (cg p) type.

(** The programs the hook runners find published for a cgroup: the one
    program of [effective[type]], or none. *)
Definition effective_progs (b : bpf.cgroup_bpf) (type : attach_type)
  : list bpf_prog :=
  match bpf.effective b type with
  | Some prog => [prog]
  | None => []
  end.





(** Sockets and an skb for the examples: an [AF_INET] (2) full socket
    and an [AF_UNIX] (1) full socket, both in cgroup [1]; the first
    program of the examples accepts, the others reject. *)
Definition sock_inet : sock :=
  {| sk_family := 2; sk_fullsock := true; sock_cgroup_ptr := 1%nat |}.

Definition sock_unix : sock :=
  {| sk_family := 1; sk_fullsock := true; sock_cgroup_ptr := 1%nat |}.

Definition skb_example : sk_buff :=
  {| skb_sk := None; skb_data := 34; skb_len := 100; skb_network_header := 14 |}.

Definition run_example {ctx : Type} (prog : bpf_prog) (c : ctx) : Z :=
  if (prog =? 11)%nat then 1 else 0.

(** A store for the helpers over the ancestors, with the flag bits
    [BPF_F_ALLOW_OVERRIDE = 1] and [BPF_F_ALLOW_MULTI = 2]: cgroup [2]
    holds program [12], its parent [1] holds [11] and allows override
    only, the root [0] holds [10] and allows multi. *)
Definition store_lists : cgroup -> bpf.cgroup_bpf :=
  fun c =>
    {| bpf.prog := fun _ => None;
       bpf.effective := fun _ => None;
       bpf.disallow_override := fun _ => false;
       bpf.progs := fun _ =>
         match c with
         | 0%nat => [{| pl_prog := Some 10%nat |}]
         | 1%nat => [{| pl_prog := Some 11%nat |}]
         | 2%nat => [{| pl_prog := None |}; {| pl_prog := Some 12%nat |}]
         | _ => []
         end;
       bpf.flags := fun _ =>
         match c with
         | 0%nat => 2
         | 1%nat => 1
         | 2%nat => 2
         | _ => 0
         end |}.

(** Whether a cgroup has the multi flag for an attach type, and the
    programs of its list for that type. *)
Definition cgroup_multi (BPF_F_ALLOW_MULTI : Z) (cg : cgroup -> bpf.cgroup_bpf)
    (type : attach_type) (c : cgroup) : bool :=
  flag_set (bpf.flags (cg c) type) BPF_F_ALLOW_MULTI.

Definition cgroup_progs (cg : cgroup -> bpf.cgroup_bpf) (type : attach_type)
    (c : cgroup) : list bpf_prog :=
  prog_list_progs (bpf.progs (cg c) type).

(** The chain [compute_effective_progs] builds, over the cgroup and its
    ancestors, nearest first: the programs of a cgroup are taken when
    nothing was taken before it ([none_yet]) or when it has the multi flag;
    [multi c] is that flag and [own c] are the programs of [c]. *)
Fixpoint effective_chain (multi : cgroup -> bool) (own : cgroup -> list bpf_prog)
    (none_yet : bool) (walk : list cgroup) : list bpf_prog :=
  match walk with
  | [] => []
  | p :: rest =>
      if none_yet || multi p then
        own p ++ effective_chain multi own
                   (none_yet && (length (own p) =? 0)%nat) rest
      else effective_chain multi own none_yet rest
  end.

(** The chain as the specification words it: the programs of the cgroup
    itself, then those of its ancestors, nearest first, as long as they
    have the multi flag, the first ancestor without it included and the
    last. *)
Fixpoint spec_ancestor_chain (multi : cgroup -> bool)
    (own : cgroup -> list bpf_prog) (ps : list cgroup) : list bpf_prog :=
  match ps with
  | [] => []
  | p :: rest =>
      if multi p then own p ++ spec_ancestor_chain multi own rest
      else own p
  end.

Definition spec_effective_chain (multi : cgroup -> bool)
    (own : cgroup -> list bpf_prog) (cgrp : cgroup) (ancestors : list cgroup)
  : list bpf_prog :=
  own cgrp ++ spec_ancestor_chain multi own ancestors.

(** Scenario B on the small hierarchy: program [11] attached to the root
    and then program [12] to its child [1], both overridable. *)
Definition state_scenario_b : state :=
  snd (__cgroup_bpf_update hier4
         (snd (__cgroup_bpf_update hier4 state_none 0%nat
                 (cgroup_parent hier4 0%nat) (Some 11%nat) 0%nat true))
         1%nat (cgroup_parent hier4 1%nat) (Some 12%nat) 0%nat true).

(** Scenario B with both programs not overridable. *)
Definition state_scenario_b_strict : state :=
  snd (__cgroup_bpf_update hier4
         (snd (__cgroup_bpf_update hier4 state_none 0%nat
                 (cgroup_parent hier4 0%nat) (Some 11%nat) 0%nat false))
         1%nat (cgroup_parent hier4 1%nat) (Some 12%nat) 0%nat false).

(** ** Invariants of the attach engine *)

(** A cgroup that holds a program for the type has that program
    published. *)
Definition own_prog_effective (type : attach_type)
    (cg : cgroup -> bpf.cgroup_bpf) : Prop :=
  forall c P, bpf.prog (cg c) type = Some P -> bpf.effective (cg c) type = Some P.

(** A cgroup of the hierarchy that holds no program for the type has the
    [effective[type]] and the [disallow_override[type]] of its parent;
    at the root it has nothing published and override is not disallowed. *)
Definition inherited_state (h : css_tree) (type : attach_type)
    (cg : cgroup -> bpf.cgroup_bpf) : Prop :=
  forall c, c ∈ css_nodes h -> bpf.prog (cg c) type = None ->
    match cgroup_parent h c with
    | Some p =>
        bpf.effective (cg c) type = bpf.effective (cg p) type /\
        bpf.disallow_override (cg c) type = bpf.disallow_override (cg p) type
    | None =>
        bpf.effective (cg c) type = None /\
        bpf.disallow_override (cg c) type = false
    end.

(** The programs a cgroup holds, by attach type, and how many programs
    the cgroups of a list hold together. *)
Definition cgroup_attached (cg : cgroup -> bpf.cgroup_bpf) (ARRAY_SIZE : nat)
    (c : cgroup) : list bpf_prog :=
  flat_map (fun type => match bpf.prog (cg c) type with
                        | Some prog => [prog]
                        | None => []
                        end)
           (seq 0 ARRAY_SIZE).

Definition attached_count (cg : cgroup -> bpf.cgroup_bpf) (ARRAY_SIZE : nat)
    (cs : list cgroup) : Z :=
  Z.of_nat (length (flat_map (cgroup_attached cg ARRAY_SIZE) cs)).

(** ** Lists and hierarchies *)

Lemma elem_of_flat_map {A B} (f : A -> list B) (l : list A) (y : B) :
  y ∈ flat_map f l <-> exists x, x ∈ l /\ y ∈ f x.
Proof.
  rewrite list_elem_of_In, in_flat_map.
  split; intros (x & Hx & Hy); exists x.
  - by rewrite !list_elem_of_In.
  - by rewrite <- !list_elem_of_In.
Qed.

Lemma NoDup_flat_map_elem {A B} (f : A -> list B) (l : list A) (x : A) :
  NoDup (flat_map f l) -> x ∈ l -> NoDup (f x).
Proof.
  induction l as [|a l IH]; simpl; intros Hnd Hx.
  - by apply elem_of_nil in Hx.
  - apply list.NoDup_app in Hnd as (Ha & _ & Hl).
    apply elem_of_cons in Hx as [->|Hx]; auto.
Qed.

(** Two children of one node share no cgroup. *)
Lemma NoDup_flat_map_disjoint {A B} (f : A -> list B) (l : list A) (x1 x2 : A) (y : B) :
  NoDup (flat_map f l) -> x1 ∈ l -> x2 ∈ l -> y ∈ f x1 -> y ∈ f x2 ->
  x1 = x2.
Proof.
  induction l as [|a l IH]; simpl; intros Hnd H1 H2 Hy1 Hy2.
  - by apply elem_of_nil in H1.
  - apply list.NoDup_app in Hnd as (Ha & Hdis & Hl).
    apply elem_of_cons in H1 as [->|H1]; apply elem_of_cons in H2 as [->|H2];
      auto.
    + exfalso. apply (Hdis y Hy1). apply elem_of_flat_map. eauto.
    + exfalso. apply (Hdis y Hy2). apply elem_of_flat_map. eauto.
Qed.

Lemma css_self_nodes t : css_self t ∈ css_nodes t.
Proof. destruct t; simpl. apply elem_of_cons; auto. Qed.

Lemma css_sub_nodes t' t c : css_sub t' t -> c ∈ css_nodes t' -> c ∈ css_nodes t.
Proof.
  induction 1 as [|d ch t Hin Hsub IH]; auto.
  intros Hc. simpl. apply elem_of_cons. right.
  apply elem_of_flat_map. eauto.
Qed.

Lemma css_sub_NoDup t' t : css_sub t' t -> NoDup (css_nodes t) -> NoDup (css_nodes t').
Proof.
  induction 1 as [|d ch t Hin Hsub IH]; auto.
  simpl. intros Hnd. apply list.NoDup_cons in Hnd as [_ Hnd].
  apply IH. by apply (NoDup_flat_map_elem css_nodes ch).
Qed.

Lemma css_sub_trans t1 t2 t3 : css_sub t1 t2 -> css_sub t2 t3 -> css_sub t1 t3.
Proof.
  intros H12 H23. induction H23; auto.
  eapply css_sub_child; eauto.
Qed.

Lemma first_some_Some {A B} (f : A -> option B) (l : list A) (y : B) :
  first_some f l = Some y -> exists x, x ∈ l /\ f x = Some y.
Proof.
  induction l as [|a l IH]; simpl; [done|].
  destruct (f a) as [b|] eqn:E.
  - intros [= <-]. exists a. split; [apply elem_of_cons; auto | done].
  - intros H. destruct (IH H) as (x & Hx & Hfx).
    exists x. split; [apply elem_of_cons; auto | done].
Qed.

Lemma first_some_None {A B} (f : A -> option B) (l : list A) :
  first_some f l = None -> forall x, x ∈ l -> f x = None.
Proof.
  induction l as [|a l IH]; simpl; intros H x Hx.
  - by apply elem_of_nil in Hx.
  - destruct (f a) eqn:E; [done|].
    apply elem_of_cons in Hx as [->|Hx]; auto.
Qed.

Lemma css_at_sub t' above' above t : css_at t' above' above t -> css_sub t' t.
Proof.
  induction 1; [constructor|]. eapply css_sub_child; eauto.
Qed.

Lemma css_sub_at t' above t : css_sub t' t -> exists above', css_at t' above' above t.
Proof.
  intros Hsub. revert above.
  induction Hsub as [|c ch t Hin Hsub IH]; intros above.
  - exists above. constructor.
  - destruct (IH (c :: above)) as [above' Hat].
    exists above'. eapply css_at_child; eauto.
Qed.

(** Going one level down from an occurrence. *)
Lemma css_at_down p ch t rest above t0 :
  css_at (Css p ch) rest above t0 -> t ∈ ch -> css_at t (p :: rest) above t0.
Proof.
  intros Hat Hin.
  induction Hat as [|above c ch0 t1 Hin1 Hat IH].
  - eapply css_at_child; [done|]. constructor.
  - eapply css_at_child; eauto.
Qed.

(** Going one level up: an occurrence with ancestors [p :: rest] is the
    top of the hierarchy or a child of an occurrence of [p]. *)
Lemma css_at_up t' p rest above t0 :
  css_at t' (p :: rest) above t0 ->
  (t' = t0 /\ above = p :: rest) \/
  exists ch, css_at (Css p ch) rest above t0 /\ t' ∈ ch.
Proof.
  intros Hat.
  induction Hat as [|above c ch t Hin Hat IH]; [by left|].
  right. destruct IH as [[-> Heq]|(ch' & Hat' & Hin')].
  - injection Heq as -> ->. exists ch. split; [constructor|done].
  - exists ch'. split; [|done]. eapply css_at_child; eauto.
Qed.

Lemma css_locate_Some above h c above' t :
  css_locate above h c = Some (above', t) -> css_at t above' above h /\ css_self t = c.
Proof.
  revert above. induction h as [d ch IH] using css_tree_ind. intros above. simpl.
  destruct (decide (d = c)) as [->|Hne].
  - intros [= <- <-]. split; [constructor | done].
  - intros H. apply first_some_Some in H as (t' & Hin & Hf).
    rewrite list.Forall_forall in IH.
    destruct (IH t' Hin _ Hf) as [Hat Hself].
    split; [eapply css_at_child; eauto | done].
Qed.

Lemma css_locate_None above h c : css_locate above h c = None -> c ∉ css_nodes h.
Proof.
  revert above. induction h as [d ch IH] using css_tree_ind. intros above. simpl.
  destruct (decide (d = c)) as [->|Hne]; [done|].
  intros H Hc. apply elem_of_cons in Hc as [->|Hc]; [done|].
  apply elem_of_flat_map in Hc as (t' & Hin & Hc).
  rewrite list.Forall_forall in IH.
  apply (IH t' Hin (d :: above)); [|done].
  by apply (first_some_None _ _ H).
Qed.

Lemma css_locate_not_in above h c : c ∉ css_nodes h -> css_locate above h c = None.
Proof.
  intros Hc. destruct (css_locate above h c) as [[above' t]|] eqn:E; [|done].
  apply css_locate_Some in E as [Hat <-]. exfalso. apply Hc.
  eapply css_sub_nodes; [by eapply css_at_sub | apply css_self_nodes].
Qed.

Lemma first_some_elem {A B} (f : A -> option B) (l : list A) (x : A) (y : B) :
  x ∈ l -> f x = Some y -> (forall x', x' ∈ l -> f x' = None \/ f x' = Some y) ->
  first_some f l = Some y.
Proof.
  induction l as [|a l IH]; simpl; intros Hx Hfx Hall.
  - by apply elem_of_nil in Hx.
  - destruct (Hall a) as [Ha|Ha]; [apply elem_of_cons; auto| |by rewrite Ha].
    rewrite Ha. apply elem_of_cons in Hx as [->|Hx]; [congruence|].
    apply IH; auto. intros x' Hx'. apply Hall, elem_of_cons. auto.
Qed.

(** In a hierarchy of distinct cgroups, looking up the cgroup of an
    occurrence finds that occurrence. *)
Lemma css_locate_at t' above' above h :
  NoDup (css_nodes h) -> css_at t' above' above h ->
  css_locate above h (css_self t') = Some (above', t').
Proof.
  intros Hnd Hat. induction Hat as [|above c ch t Hin Hat IH].
  - destruct t'. simpl. by rewrite decide_True.
  - simpl in *. apply list.NoDup_cons in Hnd as [Hc Hnd].
    assert (Hself : css_self t' ∈ css_nodes t).
    { eapply css_sub_nodes; [by eapply css_at_sub | apply css_self_nodes]. }
    rewrite decide_False.
    2:{ intros ->. apply Hc, elem_of_flat_map. eauto. }
    eapply first_some_elem; [exact Hin | | ].
    + apply IH. by eapply (NoDup_flat_map_elem css_nodes ch).
    + intros t2 Hin2.
      destruct (decide (css_self t' ∈ css_nodes t2)) as [Hin'|Hout].
      * right. assert (t = t2) as <-.
        { eapply (NoDup_flat_map_disjoint css_nodes ch); eauto. }
        apply IH. by eapply (NoDup_flat_map_elem css_nodes ch).
      * left. by apply css_locate_not_in.
Qed.

Lemma css_descendants_self h c : css_self (css_descendants h c) = c.
Proof.
  unfold css_descendants. destruct (css_locate [] h c) as [[above t]|] eqn:E; [|done].
  by apply css_locate_Some in E as [_ ?].
Qed.

Lemma css_descendants_NoDup h c :
  NoDup (css_nodes h) -> NoDup (css_nodes (css_descendants h c)).
Proof.
  intros Hnd. unfold css_descendants.
  destruct (css_locate [] h c) as [[above t]|] eqn:E.
  - apply css_locate_Some in E as [Hat _].
    eapply css_sub_NoDup; [by eapply css_at_sub | done].
  - simpl. apply NoDup_singleton.
Qed.

(** The ancestors of the parent are the ancestors but the first. *)
Lemma cgroup_ancestors_parent h c p rest :
  NoDup (css_nodes h) -> cgroup_ancestors h c = p :: rest ->
  cgroup_ancestors h p = rest.
Proof.
  intros Hnd. unfold cgroup_ancestors.
  destruct (css_locate [] h c) as [[above t]|] eqn:E; [|done].
  intros ->. apply css_locate_Some in E as [Hat _].
  apply css_at_up in Hat as [[_ ?]|(ch & Hat & _)]; [done|].
  pose proof (css_locate_at (Css p ch) rest [] h Hnd Hat) as Hloc.
  simpl in Hloc. by rewrite Hloc.
Qed.

(** The parent of a child of an occurrence is the cgroup of the
    occurrence. *)
Lemma cgroup_parent_child h p ch t :
  NoDup (css_nodes h) -> css_sub (Css p ch) h -> t ∈ ch ->
  cgroup_parent h (css_self t) = Some p.
Proof.
  intros Hnd Hsub Hin.
  destruct (css_sub_at _ [] _ Hsub) as [rest Hat].
  pose proof (css_at_down _ _ _ _ _ _ Hat Hin) as Hat'.
  unfold cgroup_parent, cgroup_ancestors.
  by rewrite (css_locate_at t (p :: rest) [] h Hnd Hat').
Qed.

(** The parent of a cgroup is not among its descendants. *)
Lemma cgroup_parent_not_below h c p :
  NoDup (css_nodes h) -> cgroup_parent h c = Some p ->
  p <> c /\ p ∉ css_nodes (css_descendants h c).
Proof.
  intros Hnd. unfold cgroup_parent, cgroup_ancestors, css_descendants.
  destruct (css_locate [] h c) as [[above t]|] eqn:E; [|done].
  destruct above as [|p' rest]; [done|]. intros [= ->].
  apply css_locate_Some in E as [Hat <-].
  apply css_at_up in Hat as [[_ ?]|(ch & Hat & Hin)]; [done|].
  apply css_at_sub in Hat.
  pose proof (css_sub_NoDup _ _ Hat Hnd) as Hnd'. simpl in Hnd'.
  apply list.NoDup_cons in Hnd' as [Hp _].
  assert (Hnot : p ∉ css_nodes t).
  { intros Hpt. apply Hp, elem_of_flat_map. eauto. }
  split; [|done]. intros ->. apply Hnot, css_self_nodes.
Qed.

(** ** The descendant walk *)

Section Walk.
Variables (cgrp : cgroup) (type : attach_type).
Variables (e : option bpf_prog) (ov : bool).

Lemma assigned_nil d cg : assigned type e d [] cg cg.
Proof.
  split; [done|]. split; [|done].
  intros c Hc. by apply elem_of_nil in Hc.
Qed.

Lemma assigned_app d R1 R2 cg cg1 cg2 :
  assigned type e d R1 cg cg1 -> assigned type e d R2 cg1 cg2 ->
  assigned type e d (R1 ++ R2) cg cg2.
Proof.
  intros (Hout1 & Hin1 & Hfr1 & Hot1) (Hout2 & Hin2 & Hfr2 & Hot2).
  split; [|split; [|split]].
  - intros c Hc. rewrite elem_of_app in Hc.
    rewrite Hout2, Hout1; tauto.
  - intros c Hc. destruct (decide (c ∈ R2)) as [H2|H2]; [auto|].
    rewrite (Hout2 c H2). apply Hin1.
    apply elem_of_app in Hc as [?|?]; done.
  - intros c t. destruct (Hfr1 c t) as (<- & <- & <-). apply Hfr2.
  - intros c t Ht. destruct (Hot1 c t Ht) as (<- & <-). by apply Hot2.
Qed.

Lemma assigned_store d cg desc :
  assigned type e d [desc] cg
    (<[desc := bpf.set_disallow_override
                 (bpf.set_effective (cg desc) type e) type d]> cg).
Proof.
  split; [|split; [|split]].
  - intros c Hc. rewrite fn_lookup_insert_ne; [done|].
    intros ->. apply Hc, list_elem_of_singleton. done.
  - intros c Hc. apply list_elem_of_singleton in Hc as ->.
    rewrite fn_lookup_insert. simpl. by rewrite !fn_lookup_insert.
  - intros c t. destruct (decide (desc = c)) as [->|Hne].
    + by rewrite fn_lookup_insert.
    + by rewrite fn_lookup_insert_ne.
  - intros c t Ht. destruct (decide (desc = c)) as [->|Hne].
    + rewrite fn_lookup_insert. simpl.
      by rewrite !fn_lookup_insert_ne.
    + by rewrite fn_lookup_insert_ne.
Qed.

Lemma assigned_has_prog d R cg cg' c :
  assigned type e d R cg cg' -> has_prog cg' type c = has_prog cg type c.
Proof.
  intros (_ & _ & Hfr & _). unfold has_prog.
  by destruct (Hfr c type) as (-> & _).
Qed.

Lemma css_walk_assigned own pos : forall cg,
  (forall c, has_prog cg type c = own c) ->
  assigned type e (negb ov) (css_reached own cgrp pos) cg
           (css_walk cgrp type e ov pos cg).
Proof.
  induction pos as [desc ch IH] using css_tree_ind. intros cg Hown. simpl.
  specialize (Hown desc) as Hd. unfold has_prog in Hd. rewrite Hd.
  destruct (own desc && negb (bool_decide (desc = cgrp))).
  { apply assigned_nil. }
  change (desc :: flat_map (css_reached own cgrp) ch)
    with ([desc] ++ flat_map (css_reached own cgrp) ch).
  eapply assigned_app; [apply assigned_store|].
  assert (Hown1 : forall c,
    has_prog (<[desc := bpf.set_disallow_override
                 (bpf.set_effective (cg desc) type e) type (negb ov)]> cg)
             type c = own c).
  { intros c. rewrite <- Hown. eapply assigned_has_prog, assigned_store. }
  revert Hown1.
  generalize (<[desc := bpf.set_disallow_override
                 (bpf.set_effective (cg desc) type e) type (negb ov)]> cg).
  clear Hd. induction IH as [|t ch' Ht _ IHch]; intros cg1 Hown1; simpl.
  - apply assigned_nil.
  - eapply assigned_app; [by apply Ht|].
    apply IHch. intros c. rewrite <- Hown1.
    eapply assigned_has_prog. by apply Ht.
Qed.

(** Whether [cgrp] itself has a program does not matter to the walk. *)
Lemma css_reached_ext own1 own2 pos :
  (forall c, c <> cgrp -> own1 c = own2 c) ->
  css_reached own1 cgrp pos = css_reached own2 cgrp pos.
Proof.
  intros Hext. induction pos as [desc ch IH] using css_tree_ind. simpl.
  assert (Hflat : flat_map (css_reached own1 cgrp) ch
                  = flat_map (css_reached own2 cgrp) ch).
  { induction IH as [|t ch' Ht _ IHch]; simpl; [done|]. by rewrite Ht, IHch. }
  rewrite Hflat. destruct (decide (desc = cgrp)) as [->|Hne].
  - rewrite bool_decide_eq_true_2 by done. simpl. by rewrite !andb_false_r.
  - by rewrite (Hext desc Hne).
Qed.

Lemma css_reached_nodes own pos c :
  c ∈ css_reached own cgrp pos -> c ∈ css_nodes pos.
Proof.
  revert c. induction pos as [desc ch IH] using css_tree_ind. intros c. simpl.
  destruct (own desc && negb (bool_decide (desc = cgrp))).
  { intros Hc. by apply elem_of_nil in Hc. }
  rewrite !elem_of_cons. intros [->|Hc]; [auto|right].
  apply elem_of_flat_map in Hc as (t & Hin & Hc).
  apply elem_of_flat_map. exists t. split; [done|].
  rewrite list.Forall_forall in IH. by apply IH.
Qed.

(** The root of the walk is always assigned to. *)
Lemma css_reached_self own pos :
  css_self pos = cgrp -> cgrp ∈ css_reached own cgrp pos.
Proof.
  destruct pos as [desc ch]. simpl. intros ->.
  rewrite bool_decide_eq_true_2 by done. rewrite andb_false_r.
  apply elem_of_cons. auto.
Qed.
End Walk.

(** ** [__cgroup_bpf_update]: what a call does *)

(** A call that fails leaves the state as it was. *)
Lemma __cgroup_bpf_update_error h s cgrp parent prog type nov err s' :
  __cgroup_bpf_update h s cgrp parent prog type nov = (RetErr err, s') -> s' = s.
Proof.
  unfold __cgroup_bpf_update.
  repeat match goal with
         | |- context [if ?b then _ else _] => destruct b
         end; congruence.
Qed.

(** A call that succeeds stores the program in [prog[type]] of [cgrp] and
    then assigns to the cgroups the walk reaches. *)
Lemma __cgroup_bpf_update_Ret0 h s cgrp parent prog type nov s' :
  __cgroup_bpf_update h s cgrp parent prog type nov = (Ret0, s') ->
  assigned type (update_effective s parent prog type)
           (negb (update_overridable s parent prog type nov))
           (update_reached h s cgrp type)
           (<[cgrp := bpf.set_prog (cgrp_bpf s cgrp) type prog]> (cgrp_bpf s))
           (cgrp_bpf s').
Proof.
  unfold __cgroup_bpf_update.
  do 4 (match goal with
        | |- context [if ?b then _ else _] => destruct b; [congruence|]
        end).
  intros H.
  assert (Hs' : cgrp_bpf s' =
    css_walk cgrp type
      (if non_null prog then prog
       else match parent with
            | Some p => bpf.effective (cgrp_bpf s p) type
            | None => None
            end)
      (if non_null prog then nov
       else match parent with
            | Some p => negb (bpf.disallow_override (cgrp_bpf s p) type)
            | None => true
            end)
      (css_descendants h cgrp)
      (<[cgrp := bpf.set_prog (cgrp_bpf s cgrp) type prog]> (cgrp_bpf s))).
  { destruct (bpf.prog (cgrp_bpf s cgrp) type); by injection H as <-. }
  rewrite Hs'. clear H Hs'. unfold update_reached.
  rewrite (css_reached_ext cgrp (has_prog (cgrp_bpf s) type)
             (has_prog (<[cgrp := bpf.set_prog (cgrp_bpf s cgrp) type prog]>
                          (cgrp_bpf s)) type)).
  2:{ intros c Hc. unfold has_prog. by rewrite fn_lookup_insert_ne. }
  replace (update_effective s parent prog type)
    with (if non_null prog then prog
          else match parent with
               | Some p => bpf.effective (cgrp_bpf s p) type
               | None => None
               end)
    by (unfold update_effective; destruct prog, parent; done).
  replace (update_overridable s parent prog type nov)
    with (if non_null prog then nov
          else match parent with
               | Some p => negb (bpf.disallow_override (cgrp_bpf s p) type)
               | None => true
               end)
    by (unfold update_overridable; destruct prog, parent; done).
  by apply css_walk_assigned.
Qed.

(** A skipped subtree holds no cgroup the walk reaches. *)
Lemma css_reached_skips own cgrp td pos c :
  NoDup (css_nodes pos) -> css_sub td pos ->
  own (css_self td) = true -> css_self td <> cgrp ->
  c ∈ css_nodes td -> c ∉ css_reached own cgrp pos.
Proof.
  intros Hnd Hsub Hown Hne Hc. induction Hsub as [|d ch t Hin Hsub IH].
  - destruct td as [d ch]. simpl in *. rewrite Hown.
    rewrite bool_decide_eq_false_2 by done. simpl. apply not_elem_of_nil.
  - simpl. destruct (own d && negb (bool_decide (d = cgrp)));
      [apply not_elem_of_nil|].
    simpl in Hnd. apply list.NoDup_cons in Hnd as [Hd Hnd].
    assert (Hct : c ∈ css_nodes t) by (by eapply css_sub_nodes).
    intros Hreach. apply elem_of_cons in Hreach as [->|Hreach].
    + apply Hd. apply elem_of_flat_map. eauto.
    + apply elem_of_flat_map in Hreach as (t2 & Hin2 & Hc2).
      assert (t = t2) as <-.
      { eapply (NoDup_flat_map_disjoint css_nodes ch); eauto.
        by eapply css_reached_nodes. }
      apply IH; [|done]. by eapply (NoDup_flat_map_elem css_nodes ch).
Qed.

(** A cgroup strictly below the root of a hierarchy is not the root. *)
Lemma css_sub_strict td pos c :
  NoDup (css_nodes pos) -> css_sub td pos -> css_self td <> css_self pos ->
  c ∈ css_nodes td -> c <> css_self pos.
Proof.
  intros Hnd Hsub Hne Hc. destruct Hsub as [|d ch t Hin Hsub]; [done|].
  simpl in *. apply list.NoDup_cons in Hnd as [Hd _].
  intros ->. apply Hd. apply elem_of_flat_map. exists t. split; [done|].
  by eapply css_sub_nodes.
Qed.

(** ** Subtree delegation *)

(** C2.  An update at [n] leaves alone every descendant [d] other than
    [n] that has a program of its own for the attach type, and every
    cgroup of the subtree of [d]: the walk reaches none of them, so their
    [effective[type]] and [disallow_override[type]], and indeed their
    whole [bpf] member, are what they were.  [td] is the subtree of [d]. *)
Theorem update_skips_delegated_subtree h s n parent prog type nov s' td c :
  NoDup (css_nodes h) ->
  __cgroup_bpf_update h s n parent prog type nov = (Ret0, s') ->
  css_sub td (css_descendants h n) -> css_self td <> n ->
  bpf.prog (cgrp_bpf s (css_self td)) type <> None ->
  c ∈ css_nodes td ->
  (c ∉ update_reached h s n type) /\
  bpf.effective (cgrp_bpf s' c) type = bpf.effective (cgrp_bpf s c) type /\
  bpf.disallow_override (cgrp_bpf s' c) type
    = bpf.disallow_override (cgrp_bpf s c) type /\
  cgrp_bpf s' c = cgrp_bpf s c.
Proof.
  intros Hnd Hup Hsub Hne Hown Hc.
  assert (Hnd' := css_descendants_NoDup h n Hnd).
  assert (Hreach : c ∉ update_reached h s n type).
  { unfold update_reached. eapply css_reached_skips; eauto.
    unfold has_prog. by destruct (bpf.prog (cgrp_bpf s (css_self td)) type). }
  assert (Hcn : c <> n).
  { pose proof (css_sub_strict td (css_descendants h n) c) as Hstrict.
    rewrite css_descendants_self in Hstrict. by apply Hstrict. }
  apply __cgroup_bpf_update_Ret0 in Hup as (Hout & _).
  assert (Heq : cgrp_bpf s' c = cgrp_bpf s c).
  { rewrite (Hout c Hreach). by rewrite fn_lookup_insert_ne. }
  rewrite Heq. done.
Qed.

Lemma update_skips_delegated_subtree_witness :
  bpf.effective (cgrp_bpf state_child_root 2%nat) 0%nat = Some 12%nat /\
  bpf.effective (cgrp_bpf state_child_root 3%nat) 0%nat = Some 11%nat /\
  cgrp_bpf state_child_root 2%nat = cgrp_bpf state_child 2%nat.
Proof.
  split; [reflexivity|]. split; [reflexivity|].
  apply (update_skips_delegated_subtree hier4 state_child 0%nat None
           (Some 11%nat) 0%nat false state_child_root
           (Css 1%nat [Css 2%nat []]) 2%nat).
  - apply (bool_decide_unpack (NoDup (css_nodes hier4))). vm_compute. exact I.
  - reflexivity.
  - apply css_sub_child with (t := Css 1%nat [Css 2%nat []]).
    + apply elem_of_cons. left. reflexivity.
    + apply css_sub_refl.
  - simpl. lia.
  - simpl. discriminate.
  - simpl. apply elem_of_cons. right. apply elem_of_cons. left. reflexivity.
Defined.

(** ** Failing calls *)

(** C3.  A cgroup that holds a program for the attach type refuses an
    attach whose mode is not the mode of that attachment: the call
    returns [-EPERM] and hands back the state it was given, every cgroup,
    the static key and the released programs included. *)
Theorem attach_mode_conflict_EPERM h s n parent p old type nov :
  bpf.prog (cgrp_bpf s n) type = Some old ->
  attached_overridable s n type <> nov ->
  __cgroup_bpf_update h s n parent (Some p) type nov = (RetErr EPERM, s).
Proof.
  unfold attached_overridable, __cgroup_bpf_update. intros -> Hmode.
  repeat match goal with
         | |- context [if ?b then _ else _] => destruct b eqn:?
         end; try done.
  all: simpl in *;
    destruct (bpf.disallow_override (cgrp_bpf s n) type), nov; simpl in *;
    congruence.
Qed.

Lemma attach_mode_conflict_EPERM_witness :
  __cgroup_bpf_update hier4 state_child 1%nat (Some 0%nat) (Some 13%nat)
                      0%nat false
  = (RetErr EPERM, state_child).
Proof.
  apply (attach_mode_conflict_EPERM hier4 state_child 1%nat (Some 0%nat)
           13%nat 12%nat 0%nat false).
  - reflexivity.
  - simpl. discriminate.
Defined.

(** C4.  Detaching from a cgroup that holds no program for the attach
    type returns [-ENOENT] and hands back the state it was given. *)
Theorem detach_nothing_ENOENT h s n parent type nov :
  bpf.prog (cgrp_bpf s n) type = None ->
  __cgroup_bpf_update h s n parent None type nov = (RetErr ENOENT, s).
Proof.
  unfold __cgroup_bpf_update. intros ->. simpl. done.
Qed.

Lemma detach_nothing_ENOENT_witness :
  __cgroup_bpf_update hier4 state_child 2%nat (Some 1%nat) None 0%nat true
  = (RetErr ENOENT, state_child).
Proof.
  apply (detach_nothing_ENOENT hier4 state_child 2%nat (Some 1%nat) 0%nat true).
  reflexivity.
Defined.

(** ** The override flag follows the propagation *)

(** C10.  A successful update at [n] stores one value in
    [disallow_override[type]] of [n] and of every descendant the walk
    visits and does not skip: the negation of the requested overridability
    on attach; on detach the negation of the overridability of the parent,
    that is the parent's own [disallow_override[type]], or [false] at the
    root. *)
Theorem update_rewrites_disallow_override h s n parent prog type nov s' :
  __cgroup_bpf_update h s n parent prog type nov = (Ret0, s') ->
  (n ∈ update_reached h s n type) /\
  forall d, d ∈ update_reached h s n type ->
    bpf.disallow_override (cgrp_bpf s' d) type
    = negb match prog, parent with
           | Some _, _ => nov
           | None, Some pa => negb (bpf.disallow_override (cgrp_bpf s pa) type)
           | None, None => true
           end.
Proof.
  intros Hup. split.
  - apply css_reached_self, css_descendants_self.
  - intros d Hd.
    apply __cgroup_bpf_update_Ret0 in Hup as (_ & Hin & _).
    by destruct (Hin d Hd) as [_ ->].
Qed.

Lemma update_rewrites_disallow_override_witness :
  bpf.disallow_override (cgrp_bpf state_child 3%nat) 0%nat = false /\
  bpf.disallow_override (cgrp_bpf state_child_root 3%nat) 0%nat = true.
Proof.
  split; [reflexivity|].
  apply (update_rewrites_disallow_override hier4 state_child 0%nat None
           (Some 11%nat) 0%nat false state_child_root).
  - reflexivity.
  - vm_compute. apply elem_of_cons. right. apply elem_of_cons. left.
    reflexivity.
Defined.

(** ** Inheritance *)

(** A cgroup the walk reaches is the root of the walk or the child of a
    cgroup the walk reaches. *)
Lemma css_reached_parent own cgrp pos c :
  c ∈ css_reached own cgrp pos ->
  c = css_self pos \/
  exists p ch t, css_sub (Css p ch) pos /\ t ∈ ch /\ css_self t = c /\
                 p ∈ css_reached own cgrp pos.
Proof.
  revert c. induction pos as [d ch IH] using css_tree_ind. intros c. simpl.
  destruct (own d && negb (bool_decide (d = cgrp))).
  { intros Hc. by apply elem_of_nil in Hc. }
  intros Hc. apply elem_of_cons in Hc as [->|Hc]; [by left|right].
  apply elem_of_flat_map in Hc as (t & Hin & Hc).
  rewrite list.Forall_forall in IH.
  destruct (IH t Hin c Hc) as [->|(p & ch' & t' & Hsub & Hin' & Hself & Hp)].
  - exists d, ch, t. repeat split; [constructor|done|].
    apply elem_of_cons. auto.
  - exists p, ch', t'. repeat split; [|done|done|].
    + eapply css_sub_child; eauto.
    + apply elem_of_cons. right. apply elem_of_flat_map. eauto.
Qed.

Lemma css_descendants_sub h c :
  c ∈ css_nodes h -> css_sub (css_descendants h c) h.
Proof.
  intros Hc. unfold css_descendants.
  destruct (css_locate [] h c) as [[above t]|] eqn:E.
  - apply css_locate_Some in E as [Hat _]. by eapply css_at_sub.
  - by apply css_locate_None in E.
Qed.

(** When the walk of an update at [n] reaches a cgroup other than [n],
    it reaches the parent of that cgroup too. *)
Lemma update_reached_parent h s n type c p :
  NoDup (css_nodes h) -> c ∈ update_reached h s n type -> c <> n ->
  cgroup_parent h c = Some p -> p ∈ update_reached h s n type.
Proof.
  intros Hnd Hc Hne Hp. unfold update_reached in *.
  destruct (decide (n ∈ css_nodes h)) as [Hn|Hn].
  - apply css_reached_parent in Hc
      as [->|(p' & ch & t & Hsub & Hin & <- & Hp')].
    { by rewrite css_descendants_self in Hne. }
    assert (Hsub' : css_sub (Css p' ch) h).
    { eapply css_sub_trans; [done|]. by apply css_descendants_sub. }
    rewrite (cgroup_parent_child h p' ch t Hnd Hsub' Hin) in Hp.
    by injection Hp as <-.
  - unfold css_descendants in Hc.
    rewrite (css_locate_not_in [] h n Hn) in Hc. simpl in Hc.
    rewrite bool_decide_eq_true_2, andb_false_r in Hc by done.
    by apply list_elem_of_singleton in Hc.
Qed.

Lemma cgroup_bpf_inherit_type_spec cg cgrp parent type c t :
  let cg' := cgroup_bpf_inherit_type cg cgrp parent type in
  bpf.effective (cg' c) t
    = (if decide (c = cgrp /\ t = type) then bpf.effective (cg parent) type
       else bpf.effective (cg c) t) /\
  bpf.disallow_override (cg' c) t
    = (if decide (c = cgrp /\ t = type)
       then bpf.disallow_override (cg parent) type
       else bpf.disallow_override (cg c) t).
Proof.
  unfold cgroup_bpf_inherit_type. simpl.
  destruct (decide (c = cgrp)) as [->|Hc].
  - rewrite !fn_lookup_insert. simpl.
    destruct (decide (t = type)) as [->|Ht].
    + rewrite !decide_True by auto. rewrite !fn_lookup_insert. split; [done|].
      destruct (decide (cgrp = parent)) as [->|Hcp].
      * by rewrite fn_lookup_insert.
      * by rewrite fn_lookup_insert_ne.
    + rewrite !decide_False by tauto. by rewrite !fn_lookup_insert_ne.
  - rewrite !decide_False by tauto. by rewrite !fn_lookup_insert_ne.
Qed.

Lemma cgroup_bpf_inherit_spec N cg cgrp parent :
  let cg' := cgroup_bpf_inherit N cg cgrp parent in
  (forall t,
     bpf.effective (cg' parent) t = bpf.effective (cg parent) t /\
     bpf.disallow_override (cg' parent) t = bpf.disallow_override (cg parent) t) /\
  (forall t, (t < N)%nat ->
     bpf.effective (cg' cgrp) t = bpf.effective (cg parent) t /\
     bpf.disallow_override (cg' cgrp) t = bpf.disallow_override (cg parent) t).
Proof.
  unfold cgroup_bpf_inherit. induction N as [|N [IHp IHc]].
  { simpl. split; [done|]. intros t Ht. lia. }
  rewrite seq_S, fold_left_app. simpl.
  set (cg1 := fold_left _ (seq 0 N) cg) in *.
  split.
  - intros t.
    destruct (cgroup_bpf_inherit_type_spec cg1 cgrp parent N parent t) as [-> ->].
    repeat case_decide; destruct_and?; subst; apply IHp.
  - intros t Ht.
    destruct (cgroup_bpf_inherit_type_spec cg1 cgrp parent N cgrp t) as [-> ->].
    repeat case_decide; destruct_and?; subst; try apply IHp.
    apply IHc. destruct (decide (t = N)); [tauto|lia].
Qed.

(** A cgroup an update reached, with no program of its own afterwards,
    has the [effective[type]] of its parent. *)
Lemma update_reached_inherits h s n prog type nov s' c p :
  NoDup (css_nodes h) ->
  __cgroup_bpf_update h s n (cgroup_parent h n) prog type nov = (Ret0, s') ->
  c ∈ update_reached h s n type ->
  cgroup_parent h c = Some p ->
  bpf.prog (cgrp_bpf s' c) type = None ->
  bpf.effective (cgrp_bpf s' c) type = bpf.effective (cgrp_bpf s' p) type.
Proof.
  intros Hnd Hup Hc Hp Hown.
  pose proof (__cgroup_bpf_update_Ret0 _ _ _ _ _ _ _ _ Hup)
    as (Hout & Hin & Hfr & _).
  destruct (Hin c Hc) as [-> _].
  destruct (decide (c = n)) as [->|Hne].
  - destruct (Hfr n type) as [Hprog _]. rewrite Hown in Hprog.
    rewrite fn_lookup_insert in Hprog. simpl in Hprog.
    rewrite fn_lookup_insert in Hprog. subst prog.
    destruct (cgroup_parent_not_below h n p Hnd Hp) as [Hpn Hbelow].
    rewrite Hout.
    + rewrite fn_lookup_insert_ne by done. by rewrite Hp.
    + intros Hreach. apply Hbelow. by eapply css_reached_nodes.
  - pose proof (update_reached_parent h s n type c p Hnd Hc Hne Hp) as Hpr.
    by destruct (Hin p Hpr) as [-> _].
Qed.

(** C5.  After an update at [n] (called with the parent of [n]), every
    cgroup the propagation reached that has no program of its own has the
    [effective[type]] of its parent; and a cgroup set up by
    [cgroup_bpf_inherit] has, for every attach type of the array, the
    [effective[type]] and the [disallow_override[type]] of the parent it
    was given. *)
Theorem inherited_effective_is_parents :
  (forall h s n prog type nov s' c p,
     NoDup (css_nodes h) ->
     __cgroup_bpf_update h s n (cgroup_parent h n) prog type nov = (Ret0, s') ->
     c ∈ update_reached h s n type ->
     cgroup_parent h c = Some p ->
     bpf.prog (cgrp_bpf s' c) type = None ->
     bpf.effective (cgrp_bpf s' c) type = bpf.effective (cgrp_bpf s' p) type) /\
  (forall ARRAY_SIZE cg cgrp parent type,
     (type < ARRAY_SIZE)%nat ->
     bpf.effective (cgroup_bpf_inherit ARRAY_SIZE cg cgrp parent cgrp) type
       = bpf.effective (cg parent) type /\
     bpf.disallow_override (cgroup_bpf_inherit ARRAY_SIZE cg cgrp parent cgrp) type
       = bpf.disallow_override (cg parent) type).
Proof.
  split.
  - apply update_reached_inherits.
  - intros N cg cgrp parent type Ht.
    by apply (cgroup_bpf_inherit_spec N cg cgrp parent).
Qed.

Lemma inherited_effective_is_parents_witness :
  bpf.effective (cgrp_bpf state_child_root 3%nat) 0%nat
    = bpf.effective (cgrp_bpf state_child_root 0%nat) 0%nat /\
  bpf.effective
    (cgroup_bpf_inherit 2 (cgrp_bpf state_child_root) 4%nat 1%nat 4%nat) 0%nat
    = Some 12%nat.
Proof.
  split.
  - apply (proj1 inherited_effective_is_parents hier4 state_child 0%nat
             (Some 11%nat) 0%nat false state_child_root 3%nat 0%nat).
    + apply (bool_decide_unpack (NoDup (css_nodes hier4))). vm_compute. exact I.
    + reflexivity.
    + vm_compute. apply elem_of_cons. right. apply elem_of_cons. left.
      reflexivity.
    + reflexivity.
    + reflexivity.
  - apply (proj1 (proj2 inherited_effective_is_parents 2%nat
                    (cgrp_bpf state_child_root) 4%nat 1%nat 0%nat
                    (Nat.lt_0_succ 1))).
Defined.

(** A subtree with the cgroup of the top of the hierarchy is all of it. *)
Lemma css_sub_top td pos :
  NoDup (css_nodes pos) -> css_sub td pos -> css_self td = css_self pos -> td = pos.
Proof.
  intros Hnd Hsub Hself. destruct Hsub as [|d ch t Hin Hsub]; [done|].
  exfalso. simpl in *. apply list.NoDup_cons in Hnd as [Hd _]. apply Hd.
  apply elem_of_flat_map. exists t. split; [done|]. rewrite <- Hself.
  eapply css_sub_nodes; [done | apply css_self_nodes].
Qed.

(** The walk goes on below every cgroup it reaches: a child without a
    program of its own is reached too. *)
Lemma css_reached_children own cgrp pos p ch t :
  NoDup (css_nodes pos) -> p ∈ css_reached own cgrp pos ->
  css_sub (Css p ch) pos -> t ∈ ch -> own (css_self t) = false ->
  css_self t ∈ css_reached own cgrp pos.
Proof.
  intros Hnd Hp Hsub Hin Hown. revert Hnd Hp Hsub.
  induction pos as [d chs IH] using css_tree_ind. intros Hnd Hp Hsub.
  assert (Ht : css_self t ∈ css_reached own cgrp t).
  { destruct t as [c cs]. simpl in *. rewrite Hown. simpl.
    apply elem_of_cons. auto. }
  simpl in *. destruct (own d && negb (bool_decide (d = cgrp))).
  { by apply elem_of_nil in Hp. }
  apply elem_of_cons. right. apply elem_of_flat_map.
  pose proof Hnd as Hnd0. apply list.NoDup_cons in Hnd as [Hd Hnd].
  apply elem_of_cons in Hp as [->|Hp].
  - apply (css_sub_top (Css d ch) (Css d chs) Hnd0) in Hsub; [|done].
    injection Hsub as ->. eauto.
  - apply elem_of_flat_map in Hp as (t1 & Hin1 & Hp1).
    inversion Hsub as [|d' chs' t2 Hin2 Hsub2]; subst.
    { exfalso. apply Hd. apply elem_of_flat_map. exists t1. split; [done|].
      by eapply css_reached_nodes. }
    assert (t1 = t2) as <-.
    { eapply (NoDup_flat_map_disjoint css_nodes chs); eauto.
      - by eapply css_reached_nodes.
      - eapply css_sub_nodes; [done|]. simpl. apply elem_of_cons. auto. }
    exists t1. split; [done|]. rewrite list.Forall_forall in IH.
    apply IH; auto. by eapply (NoDup_flat_map_elem css_nodes chs).
Qed.

(** In a hierarchy of distinct cgroups, an occurrence whose cgroup lies
    in a subtree lies in that subtree. *)
Lemma css_sub_within h t1 t2 :
  NoDup (css_nodes h) -> css_sub t1 h -> css_sub t2 h ->
  css_self t2 ∈ css_nodes t1 -> css_sub t2 t1.
Proof.
  intros Hnd H1 H2 Hin.
  destruct (css_locate [] t1 (css_self t2)) as [[above t2']|] eqn:E.
  2:{ by apply css_locate_None in E. }
  apply css_locate_Some in E as [Hat Hself]. apply css_at_sub in Hat.
  destruct (css_sub_at _ [] _ H2) as [a2 Hat2].
  destruct (css_sub_at _ [] _ (css_sub_trans _ _ _ Hat H1)) as [a2' Hat2'].
  pose proof (css_locate_at _ _ _ _ Hnd Hat2) as L2.
  pose proof (css_locate_at _ _ _ _ Hnd Hat2') as L2'.
  rewrite Hself, L2 in L2'. by injection L2' as _ ->.
Qed.

(** When the walk of an update at [n] reaches a cgroup, it reaches every
    child of that cgroup that has no program of its own. *)
Lemma update_reached_child h s n type c p :
  NoDup (css_nodes h) -> p ∈ update_reached h s n type ->
  cgroup_parent h c = Some p -> bpf.prog (cgrp_bpf s c) type = None ->
  c ∈ update_reached h s n type.
Proof.
  intros Hnd Hp Hpar Hown. unfold update_reached in *.
  unfold cgroup_parent, cgroup_ancestors in Hpar.
  destruct (css_locate [] h c) as [[above t]|] eqn:E; [|done].
  destruct above as [|p' rest]; [done|]. injection Hpar as ->.
  apply css_locate_Some in E as [Hat <-].
  apply css_at_up in Hat as [[_ ?]|(ch & Hat & Hin)]; [done|].
  apply css_at_sub in Hat.
  destruct (decide (n ∈ css_nodes h)) as [Hn|Hn].
  - eapply css_reached_children; eauto.
    + by apply css_descendants_NoDup.
    + eapply (css_sub_within h); eauto.
      * by apply css_descendants_sub.
      * simpl. by eapply css_reached_nodes.
    + unfold has_prog. by rewrite Hown.
  - exfalso. apply Hn. unfold css_descendants in Hp.
    rewrite (css_locate_not_in [] h n Hn) in Hp. simpl in Hp.
    rewrite bool_decide_eq_true_2, andb_false_r in Hp by done.
    apply list_elem_of_singleton in Hp as <-.
    eapply css_sub_nodes; [done|]. simpl. apply elem_of_cons. auto.
Qed.

(** The inheritance invariant survives every update, whatever it
    returns: between two propagations that reach a cgroup without a
    program of its own, its [effective[type]] stays that of its parent. *)
Lemma inherits_from_parent_update h s n prog type nov r s' :
  NoDup (css_nodes h) ->
  inherits_from_parent h type (cgrp_bpf s) ->
  __cgroup_bpf_update h s n (cgroup_parent h n) prog type nov = (r, s') ->
  inherits_from_parent h type (cgrp_bpf s').
Proof.
  intros Hnd Hinv Hup. destruct r as [|err].
  2:{ by rewrite (__cgroup_bpf_update_error _ _ _ _ _ _ _ _ _ Hup). }
  intros c p Hpar Hown.
  destruct (decide (c ∈ update_reached h s n type)) as [Hc|Hc].
  { by eapply update_reached_inherits. }
  pose proof (__cgroup_bpf_update_Ret0 _ _ _ _ _ _ _ _ Hup) as (Hout & _).
  assert (Hn : n ∈ update_reached h s n type).
  { apply css_reached_self, css_descendants_self. }
  assert (Hcn : c <> n) by (by intros ->).
  assert (Hsc : cgrp_bpf s' c = cgrp_bpf s c).
  { rewrite (Hout c Hc). by rewrite fn_lookup_insert_ne. }
  rewrite Hsc in Hown.
  assert (Hp : p ∉ update_reached h s n type).
  { intros Hp. apply Hc. by eapply update_reached_child. }
  assert (Hpn : p <> n) by (by intros ->).
  rewrite Hsc, (Hout p Hp), fn_lookup_insert_ne by done.
  by apply Hinv.
Qed.

(** ** The hook runners *)

Section RunnersFacts.
Variables AF_INET AF_INET6 : Z.
Context {sock_ops : Type}.
Variable bpf_prog_run_save_cb : bpf_prog -> sk_buff -> Z.
Variable BPF_PROG_RUN_sk : bpf_prog -> sock -> Z.
Variable BPF_PROG_RUN_sock_ops : bpf_prog -> sock_ops -> Z.


(** C9.  Without a socket, with a socket that is not a full socket, or
    with one whose family is neither [AF_INET] nor [AF_INET6], the skb
    hook returns [0], runs no program and leaves the skb alone, whatever
    is attached or published anywhere. *)
Theorem run_filter_skb_bypass cg sk skb type :
  match sk with
  | None => True
  | Some sk =>
      sk_fullsock sk = false \/
      (sk_family sk <> AF_INET /\ sk_family sk <> AF_INET6)
  end ->
  __cgroup_bpf_run_filter_skb AF_INET AF_INET6 bpf_prog_run_save_cb
                              cg sk skb type
  = (Ret0, [], skb).
Proof.
  unfold __cgroup_bpf_run_filter_skb. destruct sk as [sk|]; [|done].
  intros [->|[H4 H6]]; [done|].
  destruct (sk_fullsock sk); [|done]. simpl.
  apply Z.eqb_neq in H4, H6. by rewrite H4, H6.
Qed.
End RunnersFacts.


Lemma run_filter_skb_bypass_witness :
  __cgroup_bpf_run_filter_skb 2 10 run_example (cgrp_bpf state_child)
                              (Some sock_unix) skb_example 0%nat
  = (Ret0, [], skb_example).
Proof.
  apply (run_filter_skb_bypass 2 10 run_example (cgrp_bpf state_child)
           (Some sock_unix) skb_example 0%nat).
  right. split; simpl; lia.
Defined.

(** ** The helpers over the ancestors *)

Lemma to_u32_small z : 0 <= z < 2 ^ 32 -> to_u32 z = z.
Proof. intros H. unfold to_u32. by apply Z.mod_small. Qed.

Lemma to_int_small z : - 2 ^ 31 <= z < 2 ^ 31 -> to_int z = z.
Proof. intros H. unfold to_int. rewrite Z.mod_small; lia. Qed.

Lemma prog_list_length_spec head :
  prog_list_length head = Z.of_nat (length (prog_list_progs head)) mod 2 ^ 32.
Proof.
  unfold prog_list_length.
  assert (Hgen : forall l acc,
    fold_left (fun cnt pl => if non_null (pl_prog pl) then to_u32 (cnt + 1)
                             else cnt) l (acc mod 2 ^ 32)
    = (acc + Z.of_nat (length (prog_list_progs l))) mod 2 ^ 32).
  { induction l as [|pl l IH]; intros acc; simpl.
    - by rewrite Z.add_0_r.
    - destruct (pl_prog pl) as [prog|]; simpl non_null; cbv iota; [|apply IH].
      unfold to_u32. rewrite Zplus_mod_idemp_l, IH.
      rewrite length_cons, Nat2Z.inj_succ. f_equal. lia. }
  apply (Hgen head 0).
Qed.

Lemma prog_list_progs_length head :
  (length (prog_list_progs head) <= length head)%nat.
Proof.
  induction head as [|pl head IH]; simpl; [done|].
  destruct (pl_prog pl); simpl; lia.
Qed.

Lemma prog_list_length_small head :
  Z.of_nat (length (prog_list_progs head)) < 2 ^ 32 ->
  prog_list_length head = Z.of_nat (length (prog_list_progs head)).
Proof.
  intros Hlen. rewrite prog_list_length_spec. apply Z.mod_small. lia.
Qed.

Section AttachFlagsFacts.
Variables BPF_F_ALLOW_OVERRIDE BPF_F_ALLOW_MULTI : Z.

(** C7.  [hierarchy_allows_attach] goes through the ancestors of the
    cgroup from its parent to the root and stops at the first one that
    has [BPF_F_ALLOW_MULTI] set or holds exactly one program: it allows
    the attach when that ancestor has [BPF_F_ALLOW_MULTI] set, and else
    exactly when it has [BPF_F_ALLOW_OVERRIDE] set, which is how the
    flags word says that override is not disallowed.  Ancestors with no
    program are passed by, and the attach is allowed when no ancestor
    decides. *)
Theorem hierarchy_allows_attach_decision h cg cgrp type new_flags :
  (forall p, p ∈ cgroup_ancestors h cgrp ->
     Z.of_nat (length (bpf.progs (cg p) type)) < 2 ^ 32) ->
  hierarchy_allows_attach BPF_F_ALLOW_OVERRIDE BPF_F_ALLOW_MULTI
                          h cg cgrp type new_flags
  = match
      find (fun p =>
              flag_set (bpf.flags (cg p) type) BPF_F_ALLOW_MULTI
              || (length (prog_list_progs (bpf.progs (cg p) type)) =? 1)%nat)
           (cgroup_ancestors h cgrp)
    with
    | Some p =>
        flag_set (bpf.flags (cg p) type) BPF_F_ALLOW_MULTI
        || flag_set (bpf.flags (cg p) type) BPF_F_ALLOW_OVERRIDE
    | None => true
    end.
Proof.
  unfold hierarchy_allows_attach, cgroup_parent.
  generalize (cgroup_ancestors h cgrp) as ps. intros ps Hlen.
  assert (Hloop :
    hierarchy_allows_attach_loop BPF_F_ALLOW_OVERRIDE BPF_F_ALLOW_MULTI
                                 cg type ps
    = match
        find (fun p =>
                flag_set (bpf.flags (cg p) type) BPF_F_ALLOW_MULTI
                || (length (prog_list_progs (bpf.progs (cg p) type)) =? 1)%nat)
             ps
      with
      | Some p =>
          flag_set (bpf.flags (cg p) type) BPF_F_ALLOW_MULTI
          || flag_set (bpf.flags (cg p) type) BPF_F_ALLOW_OVERRIDE
      | None => true
      end).
  { induction ps as [|p ps IH]; simpl; [done|].
    destruct (flag_set (bpf.flags (cg p) type) BPF_F_ALLOW_MULTI) eqn:Em;
      simpl; rewrite ?Em; [done|].
    rewrite prog_list_length_small.
    2:{ pose proof (prog_list_progs_length (bpf.progs (cg p) type)).
        specialize (Hlen p). rewrite elem_of_cons in Hlen.
        specialize (Hlen (or_introl eq_refl)). lia. }
    assert (Hb : forall n : nat, (Z.of_nat n =? 1) = (n =? 1)%nat).
    { intros n. destruct (Nat.eqb_spec n 1), (Z.eqb_spec (Z.of_nat n) 1);
        (done || lia). }
    rewrite Hb.
    destruct (length (prog_list_progs (bpf.progs (cg p) type)) =? 1)%nat;
      simpl; rewrite ?Em; [done|].
    apply IH. intros q Hq. apply Hlen, elem_of_cons. auto. }
  destruct ps as [|p ps]; [done|]. simpl head. cbv iota. exact Hloop.
Qed.
End AttachFlagsFacts.

Lemma hierarchy_allows_attach_decision_witness :
  hierarchy_allows_attach 1 2 hier4 store_lists 2%nat 0%nat 0 = true.
Proof.
  apply (hierarchy_allows_attach_decision 1 2 hier4 store_lists 2%nat 0%nat 0).
  intros p Hp. vm_compute in Hp.
  apply elem_of_cons in Hp as [->|Hp]; [reflexivity|].
  apply elem_of_cons in Hp as [->|Hp]; [reflexivity|].
  by apply elem_of_nil in Hp.
Defined.

(** ** [compute_effective_progs] *)

Section ComputeFacts.
Variable BPF_F_ALLOW_MULTI : Z.
Variables (cg : cgroup -> bpf.cgroup_bpf) (type : attach_type).

Local Abbreviation multi := (cgroup_multi BPF_F_ALLOW_MULTI cg type).
Local Abbreviation own := (cgroup_progs cg type).

Lemma Z_of_nat_eqb_0 (n : nat) : (Z.of_nat n =? 0) = (n =? 0)%nat.
Proof.
  destruct (Nat.eqb_spec n 0), (Z.eqb_spec (Z.of_nat n) 0); (done || lia).
Qed.

(** The first loop counts the chain. *)
Lemma count_effective_spec walk : forall n : nat,
  Z.of_nat (n + length (effective_chain multi own (n =? 0)%nat walk)) < 2 ^ 31 ->
  count_effective BPF_F_ALLOW_MULTI cg type walk (Z.of_nat n)
  = Z.of_nat (n + length (effective_chain multi own (n =? 0)%nat walk)).
Proof.
  induction walk as [|p rest IH]; intros n Hlt; simpl in *.
  - f_equal. lia.
  - rewrite Z_of_nat_eqb_0.
    change (flag_set (bpf.flags (cg p) type) BPF_F_ALLOW_MULTI) with (multi p).
    destruct ((n =? 0)%nat || multi p).
    + rewrite length_app in *.
      assert (Hnz : ((n + length (own p) =? 0) = (n =? 0) && (length (own p) =? 0))%nat).
      { by destruct n, (length (own p)). }
      rewrite <- Hnz in *.
      rewrite prog_list_length_small by (fold (own p); lia).
      fold (own p). rewrite to_int_small by lia.
      rewrite <- Nat2Z.inj_add, IH by lia. f_equal. lia.
    + by apply IH.
Qed.

(** Populating from one list fills the next free slots. *)
Lemma populate_list_spec head : forall (filled : list bpf_prog) (k : nat),
  (length (prog_list_progs head) <= k)%nat ->
  Z.of_nat (length filled + length (prog_list_progs head)) < 2 ^ 31 ->
  populate_list head (map Some filled ++ replicate k None)
                (Z.of_nat (length filled))
  = Some (map Some (filled ++ prog_list_progs head)
            ++ replicate (k - length (prog_list_progs head)) None,
          Z.of_nat (length filled + length (prog_list_progs head))).
Proof.
  induction head as [|pl head IH]; intros filled k Hk Hlt; simpl in *.
  - rewrite app_nil_r, Nat.sub_0_r, Nat.add_0_r. done.
  - destruct (pl_prog pl) as [prog|]; [|by apply IH].
    simpl in *. destruct k as [|k]; [lia|].
    rewrite length_app, length_map, length_replicate.
    replace ((0 <=? Z.of_nat (length filled))
             && (Z.of_nat (length filled)
                 <? Z.of_nat (length filled + S k))) with true.
    2:{ symmetry. apply andb_true_iff. split; [apply Z.leb_le|apply Z.ltb_lt]; lia. }
    rewrite Nat2Z.id. rewrite to_int_small by lia.
    rewrite insert_app_r_alt by (rewrite length_map; lia).
    rewrite length_map, Nat.sub_diag. simpl.
    replace (map Some filled ++ Some prog :: replicate k None)
      with (map Some (filled ++ [prog]) ++ replicate k None)
      by (rewrite map_app, <- app_assoc; done).
    replace (Z.of_nat (length filled) + 1)
      with (Z.of_nat (length (filled ++ [prog])))
      by (rewrite length_app; simpl; lia).
    rewrite IH.
    + rewrite <- app_assoc, length_app. simpl. do 3 f_equal. lia.
    + lia.
    + rewrite length_app. simpl. lia.
Qed.

(** The second loop fills the array with the chain. *)
Lemma populate_effective_spec walk : forall (filled : list bpf_prog) (k : nat),
  let chain := effective_chain multi own (length filled =? 0)%nat walk in
  (length chain <= k)%nat ->
  Z.of_nat (length filled + length chain) < 2 ^ 31 ->
  populate_effective BPF_F_ALLOW_MULTI cg type walk
                     (map Some filled ++ replicate k None)
                     (Z.of_nat (length filled))
  = Some (map Some (filled ++ chain) ++ replicate (k - length chain) None,
          Z.of_nat (length filled + length chain)).
Proof.
  induction walk as [|p rest IH]; intros filled k; simpl.
  - intros _ _. rewrite app_nil_r, Nat.sub_0_r, Nat.add_0_r. done.
  - rewrite Z_of_nat_eqb_0.
    change (flag_set (bpf.flags (cg p) type) BPF_F_ALLOW_MULTI) with (multi p).
    destruct ((length filled =? 0)%nat || multi p).
    + rewrite length_app. intros Hk Hlt.
      rewrite populate_list_spec by (fold (own p); lia).
      fold (own p).
      assert (Hnz : ((length (filled ++ own p) =? 0)
                     = (length filled =? 0) && (length (own p) =? 0))%nat).
      { rewrite length_app. destruct (length filled), (length (own p));
          simpl; try done. }
      rewrite <- Hnz in *.
      specialize (IH (filled ++ own p) (k - length (own p))%nat).
      cbv zeta in IH. revert IH Hk Hlt.
      generalize (effective_chain multi own
                    (length (filled ++ own p) =? 0)%nat rest).
      intros chain IH Hk Hlt.
      rewrite <- (length_app filled (own p)).
      rewrite IH by (rewrite ?length_app; lia).
      rewrite <- app_assoc, length_app, Nat.sub_add_distr, Nat.add_assoc.
      done.
    + intros Hk Hlt. by apply IH.
Qed.

(** What [compute_effective_progs] hands out. *)
Lemma compute_effective_progs_spec may_alloc h cgrp :
  let chain := effective_chain multi own true (cgrp :: cgroup_ancestors h cgrp) in
  Z.of_nat (length chain) < 2 ^ 31 ->
  compute_effective_progs BPF_F_ALLOW_MULTI may_alloc h cg cgrp type
  = if may_alloc then Some (Ret0, Some (map Some chain))
    else Some (RetErr ENOMEM, None).
Proof.
  intros chain Hlt. unfold compute_effective_progs, bpf_prog_array_alloc.
  destruct may_alloc; [|done].
  pose proof (count_effective_spec (cgrp :: cgroup_ancestors h cgrp) 0) as Hcnt.
  change (Z.of_nat 0) with 0 in Hcnt. change (0 =? 0)%nat with true in Hcnt.
  fold chain in Hcnt. rewrite Hcnt by (simpl; lia). clear Hcnt.
  rewrite to_u32_small by (simpl; lia). rewrite Nat.add_0_l, Nat2Z.id.
  pose proof (populate_effective_spec (cgrp :: cgroup_ancestors h cgrp) []
                (length chain)) as Hpop.
  change (length [] =? 0)%nat with true in Hpop. fold chain in Hpop.
  change (map Some [] ++ replicate (length chain) None)
    with (replicate (length chain) (@None bpf_prog)) in Hpop.
  change (Z.of_nat (length [])) with 0 in Hpop.
  rewrite Hpop by (simpl; lia).
  rewrite Nat.sub_diag. simpl. by rewrite app_nil_r.
Qed.
End ComputeFacts.

(** ** Around the runs *)

(** The skb hook hands the skb back as it got it: the socket and the data
    pointer are restored after the program has run. *)
Lemma __cgroup_bpf_run_filter_skb_restores AF_INET AF_INET6 run cg sk skb type :
  0 <= skb_len skb < 2 ^ 32 ->
  snd (__cgroup_bpf_run_filter_skb AF_INET AF_INET6 run cg sk skb type) = skb.
Proof.
  intros Hlen. unfold __cgroup_bpf_run_filter_skb.
  destruct sk as [sk|]; [|done].
  destruct (negb (sk_fullsock sk)); [done|].
  destruct (negb (sk_family sk =? AF_INET) && negb (sk_family sk =? AF_INET6));
    [done|].
  destruct (bpf.effective (cg (sock_cgroup_ptr sk)) type) as [prog|]; [|done].
  destruct skb as [ssk data len nh].
  unfold skb_set_sk, __skb_pull, __skb_push, to_u32. simpl in *.
  f_equal; [lia|].
  rewrite Zminus_mod_idemp_l.
  replace (len + (data - nh) mod 2 ^ 32 - (data - nh) mod 2 ^ 32) with len by lia.
  by apply Z.mod_small.
Qed.

(** [cgroup_bpf_put] releases the programs and leaves the cgroups alone. *)
Lemma cgroup_bpf_put_store ARRAY_SIZE s cgrp :
  cgrp_bpf (cgroup_bpf_put ARRAY_SIZE s cgrp) = cgrp_bpf s.
Proof.
  unfold cgroup_bpf_put. generalize (seq 0 ARRAY_SIZE) as types.
  intros types. revert s.
  induction types as [|type types IH]; intros s; simpl; [done|].
  rewrite IH. by destruct (bpf.prog (cgrp_bpf s cgrp) type).
Qed.

(** ** Attaching below an attachment *)

(** An attach succeeds when the cgroup holds no program and its parent,
    if it has one, has nothing effective or is overridable with an
    overridable request. *)
Lemma __cgroup_bpf_update_attach_ok h s n parent P type nov :
  match parent with
  | None => True
  | Some p =>
      bpf.effective (cgrp_bpf s p) type = None \/
      (bpf.disallow_override (cgrp_bpf s p) type = false /\ nov = true)
  end ->
  bpf.prog (cgrp_bpf s n) type = None ->
  exists s', __cgroup_bpf_update h s n parent (Some P) type nov = (Ret0, s').
Proof.
  intros Hparent Hown. unfold __cgroup_bpf_update. rewrite Hown.
  destruct parent as [p|]; simpl.
  - destruct Hparent as [-> | [-> ->]]; simpl.
    + eauto.
    + rewrite andb_false_r. simpl. eauto.
  - eauto.
Qed.

(** The walk reaches no cgroup, other than its root, that holds a
    program. *)
Lemma css_reached_not_own own cgrp pos c :
  c ∈ css_reached own cgrp pos -> own c = false \/ c = cgrp.
Proof.
  revert c. induction pos as [d ch IH] using css_tree_ind. intros c. simpl.
  destruct (own d && negb (bool_decide (d = cgrp))) eqn:E.
  { intros Hc. by apply elem_of_nil in Hc. }
  intros Hc. apply elem_of_cons in Hc as [->|Hc].
  - apply andb_false_iff in E as [E|E]; [by left|right].
    apply negb_false_iff, bool_decide_eq_true_1 in E. done.
  - apply elem_of_flat_map in Hc as (t & Hin & Hc).
    rewrite list.Forall_forall in IH. by apply (IH t Hin).
Qed.

(** The mode a cgroup was attached with is what [attached_overridable]
    reads back, and an update at another cgroup does not change it while
    the program stays attached. *)
Lemma attached_overridable_recorded h s n parent prog type nov s' :
  __cgroup_bpf_update h s n parent prog type nov = (Ret0, s') ->
  (forall P, prog = Some P -> attached_overridable s' n type = nov) /\
  (forall c, c <> n -> bpf.prog (cgrp_bpf s c) type <> None ->
     cgrp_bpf s' c = cgrp_bpf s c).
Proof.
  intros Hup.
  pose proof (__cgroup_bpf_update_Ret0 _ _ _ _ _ _ _ _ Hup) as (Hout & Hin & _).
  split.
  - intros P ->. unfold attached_overridable.
    destruct (Hin n) as [_ ->].
    + apply css_reached_self, css_descendants_self.
    + simpl. apply negb_involutive.
  - intros c Hne Hown. rewrite Hout.
    + by rewrite fn_lookup_insert_ne.
    + intros Hc. apply css_reached_not_own in Hc as [Hc|Hc]; [|done].
      unfold has_prog in Hc. by destruct (bpf.prog (cgrp_bpf s c) type).
Qed.

(** C1, as the code has it.  With nothing attached at the root [R] or at
    its child [C], attaching [P1] at [R] and then [P2] at [C], both
    overridable, succeeds twice and leaves [P2] alone published at [C]:
    the attach replaces what [C] inherited, nothing is stacked.
    [compute_effective_progs], which the attach does not call, lists the
    programs of the cgroup first and then, nearest first and up to the
    root, those of every ancestor that has [BPF_F_ALLOW_MULTI] set or
    that is reached while the chain is still empty; the array it hands
    out holds exactly that chain. *)
Theorem attach_publishes_new_prog_alone :
  (forall h s R C P1 P2 type,
     cgroup_parent h R = None -> cgroup_parent h C = Some R ->
     bpf.prog (cgrp_bpf s R) type = None ->
     bpf.prog (cgrp_bpf s C) type = None ->
     exists s1 s2,
       __cgroup_bpf_update h s R (cgroup_parent h R) (Some P1) type true
         = (Ret0, s1) /\
       __cgroup_bpf_update h s1 C (cgroup_parent h C) (Some P2) type true
         = (Ret0, s2) /\
       effective_progs (cgrp_bpf s2 C) type = [P2]) /\
  (forall BPF_F_ALLOW_MULTI may_alloc h cg cgrp type,
     Z.of_nat (length
       (effective_chain (cgroup_multi BPF_F_ALLOW_MULTI cg type)
          (cgroup_progs cg type)
          true (cgrp :: cgroup_ancestors h cgrp))) < 2 ^ 31 ->
     compute_effective_progs BPF_F_ALLOW_MULTI may_alloc h cg cgrp type
     = if may_alloc then
         Some (Ret0,
               Some (map Some
                 (effective_chain (cgroup_multi BPF_F_ALLOW_MULTI cg type)
                    (cgroup_progs cg type)
                    true (cgrp :: cgroup_ancestors h cgrp))))
       else Some (RetErr ENOMEM, None)).
Proof.
  split.
  - intros h s R C P1 P2 type HR HC HownR HownC.
    assert (Hne : C <> R) by (intros ->; congruence).
    rewrite HR, HC.
    destruct (__cgroup_bpf_update_attach_ok h s R None P1 type true I HownR)
      as [s1 H1].
    pose proof (__cgroup_bpf_update_Ret0 _ _ _ _ _ _ _ _ H1)
      as (_ & Hin1 & Hfr1 & _).
    destruct (Hin1 R) as [He1 Hd1].
    { apply css_reached_self, css_descendants_self. }
    simpl in He1, Hd1.
    assert (HownC1 : bpf.prog (cgrp_bpf s1 C) type = None).
    { destruct (Hfr1 C type) as [-> _]. by rewrite fn_lookup_insert_ne. }
    destruct (__cgroup_bpf_update_attach_ok h s1 C (Some R) P2 type true)
      as [s2 H2]; [by right | done |].
    exists s1, s2. split; [done|]. split; [done|].
    pose proof (__cgroup_bpf_update_Ret0 _ _ _ _ _ _ _ _ H2) as (_ & Hin2 & _).
    destruct (Hin2 C) as [He2 _].
    { apply css_reached_self, css_descendants_self. }
    unfold effective_progs. by rewrite He2.
  - intros MULTI may_alloc h cg cgrp type Hlt.
    by apply compute_effective_progs_spec.
Qed.

Lemma attach_publishes_new_prog_alone_witness :
  (exists s1 s2,
     __cgroup_bpf_update hier4 state_none 0%nat (cgroup_parent hier4 0%nat)
                         (Some 11%nat) 0%nat true = (Ret0, s1) /\
     __cgroup_bpf_update hier4 s1 1%nat (cgroup_parent hier4 1%nat)
                         (Some 12%nat) 0%nat true = (Ret0, s2) /\
     effective_progs (cgrp_bpf s2 1%nat) 0%nat = [12%nat]) /\
  compute_effective_progs 2 true hier4 store_lists 2%nat 0%nat
  = Some (Ret0, Some [Some 12%nat; Some 10%nat]).
Proof.
  split.
  - apply (proj1 attach_publishes_new_prog_alone hier4 state_none
             0%nat 1%nat 11%nat 12%nat 0%nat); reflexivity.
  - apply (proj2 attach_publishes_new_prog_alone 2 true hier4 store_lists
             2%nat 0%nat).
    vm_compute. reflexivity.
Defined.

(** C1, as the specification has it, fails on the small hierarchy: after
    the two attaches of scenario B the child has [12] published, not
    [12; 11] (and with both programs not overridable the second attach is
    refused and the child is left with [11]); and for cgroup [2] of the
    store with lists, whose parent has no multi flag,
    [compute_effective_progs] passes the parent by and goes on to the
    root, where the specification's chain takes the parent and stops. *)
Lemma attach_chain_counterexample :
  effective_progs (cgrp_bpf state_scenario_b 1%nat) 0%nat = [12%nat] /\
  effective_progs (cgrp_bpf state_scenario_b 1%nat) 0%nat <> [12%nat; 11%nat] /\
  effective_progs (cgrp_bpf state_scenario_b_strict 1%nat) 0%nat
    <> [12%nat; 11%nat] /\
  spec_effective_chain (cgroup_multi 2 store_lists 0%nat)
    (cgroup_progs store_lists 0%nat)
    2%nat (cgroup_ancestors hier4 2%nat) = [12%nat; 11%nat] /\
  compute_effective_progs 2 true hier4 store_lists 2%nat 0%nat
    = Some (Ret0, Some [Some 12%nat; Some 10%nat]) /\
  compute_effective_progs 2 true hier4 store_lists 2%nat 0%nat
  <> Some (Ret0, Some (map Some
       (spec_effective_chain (cgroup_multi 2 store_lists 0%nat)
          (cgroup_progs store_lists 0%nat)
          2%nat (cgroup_ancestors hier4 2%nat)))).
Proof.
  repeat split; try reflexivity; vm_compute; discriminate.
Qed.

(** ** More on [__cgroup_bpf_update] *)

(** The static key and the released programs after a successful call. *)
Lemma __cgroup_bpf_update_accounting h s n parent prog type nov s' :
  __cgroup_bpf_update h s n parent prog type nov = (Ret0, s') ->
  cgroup_bpf_enabled_key s'
    = cgroup_bpf_enabled_key s
      + (if non_null prog then 1 else 0)
      - (if non_null (bpf.prog (cgrp_bpf s n) type) then 1 else 0) /\
  bpf_prog_put s'
    = match bpf.prog (cgrp_bpf s n) type with
      | Some old => old :: bpf_prog_put s
      | None => bpf_prog_put s
      end.
Proof.
  unfold __cgroup_bpf_update.
  do 4 (match goal with
        | |- context [if ?b then _ else _] => destruct b; [congruence|]
        end).
  destruct (bpf.prog (cgrp_bpf s n) type); intros [= <-]; simpl;
    destruct (non_null prog); split; (done || lia).
Qed.

(** The own slot after a successful call, and what the call leaves alone
    in every cgroup. *)
Lemma __cgroup_bpf_update_slots h s n parent prog type nov s' :
  __cgroup_bpf_update h s n parent prog type nov = (Ret0, s') ->
  bpf.prog (cgrp_bpf s' n) type = prog /\
  (forall c t, c <> n \/ t <> type ->
     bpf.prog (cgrp_bpf s' c) t = bpf.prog (cgrp_bpf s c) t) /\
  (forall c t,
     bpf.progs (cgrp_bpf s' c) t = bpf.progs (cgrp_bpf s c) t /\
     bpf.flags (cgrp_bpf s' c) t = bpf.flags (cgrp_bpf s c) t) /\
  (forall c t, t <> type ->
     bpf.effective (cgrp_bpf s' c) t = bpf.effective (cgrp_bpf s c) t /\
     bpf.disallow_override (cgrp_bpf s' c) t
       = bpf.disallow_override (cgrp_bpf s c) t).
Proof.
  intros Hup.
  apply __cgroup_bpf_update_Ret0 in Hup as (_ & _ & Hfr & Hot).
  split; [|split; [|split]].
  - destruct (Hfr n type) as (-> & _). rewrite fn_lookup_insert. simpl.
    by rewrite fn_lookup_insert.
  - intros c t Hct. destruct (Hfr c t) as (-> & _).
    destruct (decide (n = c)) as [->|Hne].
    + rewrite fn_lookup_insert. simpl. rewrite fn_lookup_insert_ne; [done|].
      destruct Hct; congruence.
    + by rewrite fn_lookup_insert_ne.
  - intros c t. destruct (Hfr c t) as (_ & -> & ->).
    destruct (decide (n = c)) as [->|Hne].
    + by rewrite fn_lookup_insert.
    + by rewrite fn_lookup_insert_ne.
  - intros c t Ht. destruct (Hot c t Ht) as (-> & ->).
    destruct (decide (n = c)) as [->|Hne].
    + by rewrite fn_lookup_insert.
    + by rewrite fn_lookup_insert_ne.
Qed.

(** X1.  A call that does not return [0] returns [-EPERM] or [-ENOENT],
    never anything else, and hands back the state it was given. *)
Theorem update_failure_is_atomic h s n parent prog type nov r s' :
  __cgroup_bpf_update h s n parent prog type nov = (r, s') ->
  r <> Ret0 ->
  s' = s /\ (r = RetErr EPERM \/ r = RetErr ENOENT).
Proof.
  unfold __cgroup_bpf_update.
  repeat match goal with
         | |- context [if ?b then _ else _] => destruct b
         end; intros H Hr; injection H as <- <-; try done; auto.
Qed.

Lemma update_failure_is_atomic_witness :
  snd (__cgroup_bpf_update hier4 state_child_root 3%nat (Some 0%nat)
         (Some 13%nat) 0%nat true) = state_child_root.
Proof.
  apply (update_failure_is_atomic hier4 state_child_root 3%nat (Some 0%nat)
           (Some 13%nat) 0%nat true (RetErr EPERM)).
  - reflexivity.
  - discriminate.
Defined.

(** X3.  A successful call stores the program in [prog[type]] of the
    cgroup and touches no other own slot, no program list and no flags
    word of any cgroup, and nothing that belongs to another attach
    type. *)
Theorem update_touches_one_type h s n parent prog type nov s' :
  __cgroup_bpf_update h s n parent prog type nov = (Ret0, s') ->
  bpf.prog (cgrp_bpf s' n) type = prog /\
  (forall c t, c <> n \/ t <> type ->
     bpf.prog (cgrp_bpf s' c) t = bpf.prog (cgrp_bpf s c) t) /\
  (forall c t,
     bpf.progs (cgrp_bpf s' c) t = bpf.progs (cgrp_bpf s c) t /\
     bpf.flags (cgrp_bpf s' c) t = bpf.flags (cgrp_bpf s c) t) /\
  (forall c t, t <> type ->
     bpf.effective (cgrp_bpf s' c) t = bpf.effective (cgrp_bpf s c) t /\
     bpf.disallow_override (cgrp_bpf s' c) t
       = bpf.disallow_override (cgrp_bpf s c) t).
Proof. apply __cgroup_bpf_update_slots. Qed.

Lemma update_touches_one_type_witness :
  bpf.prog (cgrp_bpf state_child_root 0%nat) 0%nat = Some 11%nat /\
  bpf.prog (cgrp_bpf state_child_root 1%nat) 0%nat = Some 12%nat /\
  bpf.effective (cgrp_bpf state_child_root 3%nat) 1%nat = None.
Proof.
  destruct (update_touches_one_type hier4 state_child 0%nat None
              (Some 11%nat) 0%nat false state_child_root eq_refl)
    as (H0 & Hown & _ & Hot).
  split; [exact H0|]. split.
  - rewrite (Hown 1%nat 0%nat) by (left; discriminate). reflexivity.
  - destruct (Hot 3%nat 1%nat) as [-> _]; [discriminate|reflexivity].
Defined.

(** X4.  Whatever it returns, a call at [n] changes nothing in a cgroup
    that is neither [n] nor below [n]. *)
Theorem update_stays_below h s n parent prog type nov r s' c :
  __cgroup_bpf_update h s n parent prog type nov = (r, s') ->
  c ∉ css_nodes (css_descendants h n) ->
  cgrp_bpf s' c = cgrp_bpf s c.
Proof.
  intros Hup Hc. destruct r as [|err].
  - assert (Hcn : c <> n).
    { intros ->. apply Hc. rewrite <- (css_descendants_self h n) at 1.
      apply css_self_nodes. }
    apply __cgroup_bpf_update_Ret0 in Hup as (Hout & _).
    rewrite Hout.
    + by rewrite fn_lookup_insert_ne.
    + intros Hreach. apply Hc. by eapply css_reached_nodes.
  - by rewrite (__cgroup_bpf_update_error _ _ _ _ _ _ _ _ _ Hup).
Qed.

Lemma update_stays_below_witness :
  cgrp_bpf state_child 3%nat = cgrp_bpf state_none 3%nat.
Proof.
  apply (update_stays_below hier4 state_none 1%nat (Some 0%nat)
           (Some 12%nat) 0%nat true Ret0 state_child 3%nat).
  - reflexivity.
  - vm_compute. intros H.
    apply elem_of_cons in H as [H|H]; [discriminate|].
    apply elem_of_cons in H as [H|H]; [discriminate|].
    by apply elem_of_nil in H.
Defined.

(** X5.  Updates keep the own program published: if every cgroup that
    holds a program for the type has it as its [effective[type]], the
    same is true after any call. *)
Theorem update_keeps_own_prog_effective h s n parent prog type nov r s' :
  own_prog_effective type (cgrp_bpf s) ->
  __cgroup_bpf_update h s n parent prog type nov = (r, s') ->
  own_prog_effective type (cgrp_bpf s').
Proof.
  intros Hinv Hup. destruct r as [|err].
  2:{ by rewrite (__cgroup_bpf_update_error _ _ _ _ _ _ _ _ _ Hup). }
  pose proof (__cgroup_bpf_update_slots _ _ _ _ _ _ _ _ Hup) as (Hn & Hown & _).
  pose proof (__cgroup_bpf_update_Ret0 _ _ _ _ _ _ _ _ Hup) as (Hout & Hin & _).
  intros c P Hc. destruct (decide (c = n)) as [->|Hne].
  - rewrite Hc in Hn. subst prog. destruct (Hin n) as [-> _]; [|reflexivity].
    apply css_reached_self, css_descendants_self.
  - rewrite Hown in Hc by auto. rewrite Hout.
    + rewrite fn_lookup_insert_ne by done. by apply Hinv.
    + intros Hreach. apply css_reached_not_own in Hreach as [Hno|?]; [|done].
      unfold has_prog in Hno. by rewrite Hc in Hno.
Qed.

Lemma update_keeps_own_prog_effective_witness :
  own_prog_effective 0%nat (cgrp_bpf state_child_root).
Proof.
  apply (update_keeps_own_prog_effective hier4 state_child 0%nat None
           (Some 11%nat) 0%nat false Ret0 state_child_root).
  - apply (update_keeps_own_prog_effective hier4 state_none 1%nat (Some 0%nat)
             (Some 12%nat) 0%nat true Ret0 state_child).
    + intros c P H. discriminate H.
    + reflexivity.
  - reflexivity.
Defined.

(** ** The static key counts the attached programs *)

Lemma flat_map_ext_elem {A B} (f g : A -> list B) (l : list A) :
  (forall y, y ∈ l -> f y = g y) -> flat_map f l = flat_map g l.
Proof.
  induction l as [|a l IH]; intros Hfg; simpl; [done|].
  rewrite Hfg by (apply elem_of_cons; auto).
  rewrite IH; [done|]. intros y Hy. apply Hfg, elem_of_cons. auto.
Qed.

(** Changing what one element of a list without repetition contributes
    changes the total length by the difference. *)
Lemma length_flat_map_change {A B} (f g : A -> list B) (l : list A) (x : A) :
  NoDup l -> x ∈ l -> (forall y, y ∈ l -> y <> x -> f y = g y) ->
  (length (flat_map g l) + length (f x)
   = length (flat_map f l) + length (g x))%nat.
Proof.
  induction l as [|a l IH]; intros Hnd Hx Hfg.
  - by apply elem_of_nil in Hx.
  - apply list.NoDup_cons in Hnd as [Ha Hnd]. simpl. rewrite !length_app.
    apply elem_of_cons in Hx as [->|Hx].
    + rewrite (flat_map_ext_elem f g l); [lia|].
      intros y Hy. apply Hfg; [apply elem_of_cons; auto|].
      intros ->. done.
    + rewrite (Hfg a); [|apply elem_of_cons; auto|by intros ->].
      assert (IH' : (length (flat_map g l) + length (f x)
                     = length (flat_map f l) + length (g x))%nat).
      { apply (IH Hnd Hx). intros y Hy Hne.
        apply Hfg; [apply elem_of_cons; auto|done]. }
      lia.
Qed.

(** The count over a list of distinct cgroups after one own slot was
    changed. *)
Lemma attached_count_change cg cg' N cs n type :
  NoDup cs -> n ∈ cs -> (type < N)%nat ->
  (forall c t, c <> n \/ t <> type -> bpf.prog (cg' c) t = bpf.prog (cg c) t) ->
  attached_count cg' N cs
  = attached_count cg N cs
    + (if non_null (bpf.prog (cg' n) type) then 1 else 0)
    - (if non_null (bpf.prog (cg n) type) then 1 else 0).
Proof.
  intros Hnd Hn Ht Hsame. unfold attached_count.
  assert (Hcs := length_flat_map_change (cgroup_attached cg N)
                   (cgroup_attached cg' N) cs n Hnd Hn).
  assert (Hother : forall c, c ∈ cs -> c <> n ->
            cgroup_attached cg N c = cgroup_attached cg' N c).
  { intros c _ Hc. unfold cgroup_attached. apply flat_map_ext_elem.
    intros t _. by rewrite Hsame by auto. }
  specialize (Hcs Hother). clear Hother.
  pose proof (length_flat_map_change
                (fun t => match bpf.prog (cg n) t with
                          | Some prog => [prog]
                          | None => []
                          end)
                (fun t => match bpf.prog (cg' n) t with
                          | Some prog => [prog]
                          | None => []
                          end)
                (seq 0 N) type (NoDup_seq 0 N)) as Hts.
  assert (Hin : type ∈ seq 0 N) by (apply elem_of_seq; lia).
  specialize (Hts Hin). clear Hin.
  assert (Hother : forall t, t ∈ seq 0 N -> t <> type ->
            match bpf.prog (cg n) t with Some prog => [prog] | None => [] end
            = match bpf.prog (cg' n) t with Some prog => [prog] | None => [] end).
  { intros t _ Hne. by rewrite Hsame by auto. }
  specialize (Hts Hother). clear Hother.
  fold (cgroup_attached cg N n) in Hts. fold (cgroup_attached cg' N n) in Hts.
  cbv beta in Hts. revert Hcs Hts.
  generalize (length (flat_map (cgroup_attached cg' N) cs)),
             (length (flat_map (cgroup_attached cg N) cs)),
             (length (cgroup_attached cg' N n)),
             (length (cgroup_attached cg N n)).
  intros a b c d.
  destruct (bpf.prog (cg' n) type), (bpf.prog (cg n) type); simpl; lia.
Qed.

(** X2.  Over a hierarchy of distinct cgroups, every call keeps the
    difference between the static key and the number of programs the
    cgroups hold: the key goes up and down with the attached programs. *)
Theorem static_key_counts_attached h s n parent prog type nov r s' N :
  NoDup (css_nodes h) -> n ∈ css_nodes h -> (type < N)%nat ->
  __cgroup_bpf_update h s n parent prog type nov = (r, s') ->
  cgroup_bpf_enabled_key s' - attached_count (cgrp_bpf s') N (css_nodes h)
  = cgroup_bpf_enabled_key s - attached_count (cgrp_bpf s) N (css_nodes h).
Proof.
  intros Hnd Hn Ht Hup. destruct r as [|err].
  2:{ by rewrite (__cgroup_bpf_update_error _ _ _ _ _ _ _ _ _ Hup). }
  pose proof (__cgroup_bpf_update_accounting _ _ _ _ _ _ _ _ Hup) as [Hkey _].
  pose proof (__cgroup_bpf_update_slots _ _ _ _ _ _ _ _ Hup) as (Hprog & Hown & _).
  rewrite (attached_count_change (cgrp_bpf s) (cgrp_bpf s') N (css_nodes h)
             n type Hnd Hn Ht Hown).
  rewrite Hprog, Hkey. lia.
Qed.

Lemma static_key_counts_attached_witness :
  cgroup_bpf_enabled_key state_child_root
  - attached_count (cgrp_bpf state_child_root) 2 (css_nodes hier4)
  = cgroup_bpf_enabled_key state_child
    - attached_count (cgrp_bpf state_child) 2 (css_nodes hier4).
Proof.
  apply (static_key_counts_attached hier4 state_child 0%nat None
           (Some 11%nat) 0%nat false Ret0 state_child_root 2).
  - apply (bool_decide_unpack (NoDup (css_nodes hier4))). vm_compute. exact I.
  - simpl. apply elem_of_cons. left. reflexivity.
  - lia.
  - reflexivity.
Defined.

(** ** [cgroup_bpf_put] *)

(** X6.  [cgroup_bpf_put] hands every program the cgroup holds to
    [bpf_prog_put], in the order of the attach types, and takes one off
    the static key for each; it leaves the pointers in the cgroup as they
    were. *)
Theorem cgroup_bpf_put_releases_attached ARRAY_SIZE s cgrp :
  cgrp_bpf (cgroup_bpf_put ARRAY_SIZE s cgrp) = cgrp_bpf s /\
  bpf_prog_put (cgroup_bpf_put ARRAY_SIZE s cgrp)
    = rev (cgroup_attached (cgrp_bpf s) ARRAY_SIZE cgrp) ++ bpf_prog_put s /\
  cgroup_bpf_enabled_key (cgroup_bpf_put ARRAY_SIZE s cgrp)
    = cgroup_bpf_enabled_key s - attached_count (cgrp_bpf s) ARRAY_SIZE [cgrp].
Proof.
  unfold cgroup_bpf_put, attached_count, cgroup_attached. simpl.
  rewrite app_nil_r. generalize (seq 0 ARRAY_SIZE) as types.
  intros types. revert s.
  induction types as [|type types IH]; intros s; simpl.
  - repeat split. lia.
  - destruct (IH (match bpf.prog (cgrp_bpf s cgrp) type with
                  | Some prog =>
                      {| cgrp_bpf := cgrp_bpf s;
                         cgroup_bpf_enabled_key := cgroup_bpf_enabled_key s - 1;
                         bpf_prog_put := prog :: bpf_prog_put s |}
                  | None => s
                  end)) as (Hst & Hput & Hkey).
    rewrite Hst, Hput, Hkey. clear IH Hst Hput Hkey.
    destruct (bpf.prog (cgrp_bpf s cgrp) type) as [prog|]; simpl.
    + repeat split.
      * by rewrite <- app_assoc.
      * lia.
    + done.
Qed.

(** ** [cgroup_bpf_inherit] *)

Lemma cgroup_bpf_inherit_type_frame cg cgrp parent type :
  (forall c, c <> cgrp -> cgroup_bpf_inherit_type cg cgrp parent type c = cg c) /\
  (forall t,
     bpf.prog (cgroup_bpf_inherit_type cg cgrp parent type cgrp) t
       = bpf.prog (cg cgrp) t /\
     bpf.progs (cgroup_bpf_inherit_type cg cgrp parent type cgrp) t
       = bpf.progs (cg cgrp) t /\
     bpf.flags (cgroup_bpf_inherit_type cg cgrp parent type cgrp) t
       = bpf.flags (cg cgrp) t).
Proof.
  unfold cgroup_bpf_inherit_type. split.
  - intros c Hc. by rewrite !fn_lookup_insert_ne.
  - intros t. by rewrite !fn_lookup_insert.
Qed.

(** X7.  [cgroup_bpf_inherit] writes to the new cgroup only, and there
    only to [effective] and [disallow_override] of the attach types of
    the array: every other cgroup, the own programs, the program lists
    and the flags of the new cgroup, and whatever lies past the array
    size stay as they were. *)
Theorem cgroup_bpf_inherit_touches_child_only ARRAY_SIZE cg cgrp parent :
  (forall c, c <> cgrp -> cgroup_bpf_inherit ARRAY_SIZE cg cgrp parent c = cg c) /\
  (forall t,
     bpf.prog (cgroup_bpf_inherit ARRAY_SIZE cg cgrp parent cgrp) t
       = bpf.prog (cg cgrp) t /\
     bpf.progs (cgroup_bpf_inherit ARRAY_SIZE cg cgrp parent cgrp) t
       = bpf.progs (cg cgrp) t /\
     bpf.flags (cgroup_bpf_inherit ARRAY_SIZE cg cgrp parent cgrp) t
       = bpf.flags (cg cgrp) t) /\
  (forall t, (ARRAY_SIZE <= t)%nat ->
     bpf.effective (cgroup_bpf_inherit ARRAY_SIZE cg cgrp parent cgrp) t
       = bpf.effective (cg cgrp) t /\
     bpf.disallow_override (cgroup_bpf_inherit ARRAY_SIZE cg cgrp parent cgrp) t
       = bpf.disallow_override (cg cgrp) t).
Proof.
  unfold cgroup_bpf_inherit. induction ARRAY_SIZE as [|N (IHc & IHo & IHt)].
  { simpl. repeat split. }
  rewrite seq_S, fold_left_app. simpl.
  set (cg1 := fold_left _ (seq 0 N) cg) in *.
  destruct (cgroup_bpf_inherit_type_frame cg1 cgrp parent N) as [Hc Ho].
  split; [|split].
  - intros c Hne. rewrite Hc by done. by apply IHc.
  - intros t. destruct (Ho t) as (-> & -> & ->). apply IHo.
  - intros t Ht.
    destruct (cgroup_bpf_inherit_type_spec cg1 cgrp parent N cgrp t) as [-> ->].
    rewrite !decide_False by lia. apply IHt. lia.
Qed.

Lemma cgroup_bpf_inherit_touches_child_only_witness :
  cgroup_bpf_inherit 2 (cgrp_bpf state_child_root) 4%nat 1%nat 1%nat
    = cgrp_bpf state_child_root 1%nat /\
  bpf.prog (cgroup_bpf_inherit 2 (cgrp_bpf state_child_root) 4%nat 1%nat 4%nat)
           0%nat = None /\
  bpf.effective
    (cgroup_bpf_inherit 2 (cgrp_bpf state_child_root) 4%nat 1%nat 4%nat) 5%nat
    = None.
Proof.
  destruct (cgroup_bpf_inherit_touches_child_only 2
              (cgrp_bpf state_child_root) 4%nat 1%nat) as (Hc & Ho & Ht).
  split; [|split].
  - apply Hc. discriminate.
  - destruct (Ho 0%nat) as [-> _]. reflexivity.
  - destruct (Ht 5%nat) as [-> _]; [lia|reflexivity].
Defined.

(** X8.  A cgroup set up by [cgroup_bpf_inherit] filters like its
    parent: for an attach type of the array, the sock_ops hook gives for
    a socket of the new cgroup what it gave for a socket of the parent,
    and runs the same program. *)
Theorem inherit_runs_like_parent {sock_ops : Type}
    (run : bpf_prog -> sock_ops -> Z) ARRAY_SIZE cg cgrp parent
    (sk skp : sock) (ops : sock_ops) type :
  (type < ARRAY_SIZE)%nat ->
  sock_cgroup_ptr sk = cgrp -> sock_cgroup_ptr skp = parent ->
  __cgroup_bpf_run_filter_sock_ops run
    (cgroup_bpf_inherit ARRAY_SIZE cg cgrp parent) sk ops type
  = __cgroup_bpf_run_filter_sock_ops run cg skp ops type.
Proof.
  intros Ht <- <-. unfold __cgroup_bpf_run_filter_sock_ops.
  destruct (cgroup_bpf_inherit_spec ARRAY_SIZE cg (sock_cgroup_ptr sk)
              (sock_cgroup_ptr skp)) as [_ Hc].
  by destruct (Hc type Ht) as [-> _].
Qed.

Lemma inherit_runs_like_parent_witness :
  __cgroup_bpf_run_filter_sock_ops (sock_ops := unit) run_example
    (cgroup_bpf_inherit 2 (cgrp_bpf state_child_root) 4%nat 1%nat)
    {| sk_family := 2; sk_fullsock := true; sock_cgroup_ptr := 4%nat |}
    tt 0%nat
  = (RetErr EPERM, [12%nat]).
Proof.
  rewrite (inherit_runs_like_parent (sock_ops := unit) run_example 2
             (cgrp_bpf state_child_root) 4%nat 1%nat
             {| sk_family := 2; sk_fullsock := true; sock_cgroup_ptr := 4%nat |}
             sock_inet tt 0%nat); [reflexivity|lia|reflexivity|reflexivity].
Defined.

(** ** Propagation along the hierarchy *)

(** A cgroup the walk reaches, other than the root of the walk, has a
    parent, which the walk reaches too. *)
Lemma update_reached_has_parent h s n type c :
  NoDup (css_nodes h) -> c ∈ update_reached h s n type -> c <> n ->
  exists p, cgroup_parent h c = Some p /\ p ∈ update_reached h s n type.
Proof.
  intros Hnd Hc Hne. unfold update_reached in *.
  destruct (decide (n ∈ css_nodes h)) as [Hn|Hn].
  - apply css_reached_parent in Hc
      as [->|(p & ch & t & Hsub & Hin & <- & Hp)].
    { by rewrite css_descendants_self in Hne. }
    exists p. split; [|done].
    apply (cgroup_parent_child h p ch t Hnd); [|done].
    eapply css_sub_trans; [done|]. by apply css_descendants_sub.
  - unfold css_descendants in Hc.
    rewrite (css_locate_not_in [] h n Hn) in Hc. simpl in Hc.
    rewrite bool_decide_eq_true_2, andb_false_r in Hc by done.
    by apply list_elem_of_singleton in Hc.
Qed.

(** The walk reaches every cgroup below [n] that is linked to [n] by
    cgroups without a program of their own. *)
Lemma update_reached_path h s n type path : forall c rest,
  NoDup (css_nodes h) ->
  cgroup_ancestors h c = path ++ n :: rest ->
  (forall x, x ∈ c :: path -> bpf.prog (cgrp_bpf s x) type = None) ->
  c ∈ update_reached h s n type.
Proof.
  induction path as [|p path IH]; intros c rest Hnd Hanc Hnone.
  - apply (update_reached_child h s n type c n Hnd).
    + apply css_reached_self, css_descendants_self.
    + unfold cgroup_parent. by rewrite Hanc.
    + apply Hnone, elem_of_cons. auto.
  - apply (update_reached_child h s n type c p Hnd).
    + apply (IH p rest Hnd).
      * by apply (cgroup_ancestors_parent h c p (path ++ n :: rest)).
      * intros x Hx. apply Hnone, elem_of_cons. auto.
    + unfold cgroup_parent. by rewrite Hanc.
    + apply Hnone, elem_of_cons. auto.
Qed.

(** X9.  After a successful update at [n], a cgroup below [n] has the
    [effective[type]] and the [disallow_override[type]] of [n] whenever
    neither it nor any cgroup between it and [n] holds a program of its
    own. *)
Theorem update_propagates_down h s n parent prog type nov s' c path rest :
  NoDup (css_nodes h) ->
  __cgroup_bpf_update h s n parent prog type nov = (Ret0, s') ->
  cgroup_ancestors h c = path ++ n :: rest ->
  (forall x, x ∈ c :: path -> bpf.prog (cgrp_bpf s x) type = None) ->
  bpf.effective (cgrp_bpf s' c) type = bpf.effective (cgrp_bpf s' n) type /\
  bpf.disallow_override (cgrp_bpf s' c) type
    = bpf.disallow_override (cgrp_bpf s' n) type.
Proof.
  intros Hnd Hup Hanc Hnone.
  pose proof (update_reached_path h s n type path c rest Hnd Hanc Hnone) as Hc.
  apply __cgroup_bpf_update_Ret0 in Hup as (_ & Hin & _).
  destruct (Hin c Hc) as [-> ->].
  destruct (Hin n) as [-> ->]; [|done].
  apply css_reached_self, css_descendants_self.
Qed.

Lemma update_propagates_down_witness :
  bpf.effective (cgrp_bpf state_child 2%nat) 0%nat
    = bpf.effective (cgrp_bpf state_child 1%nat) 0%nat /\
  bpf.disallow_override (cgrp_bpf state_child 2%nat) 0%nat
    = bpf.disallow_override (cgrp_bpf state_child 1%nat) 0%nat.
Proof.
  apply (update_propagates_down hier4 state_none 1%nat (Some 0%nat)
           (Some 12%nat) 0%nat true state_child 2%nat [] [0%nat]).
  - apply (bool_decide_unpack (NoDup (css_nodes hier4))). vm_compute. exact I.
  - reflexivity.
  - reflexivity.
  - intros x Hx. reflexivity.
Defined.

(** ** Attaching below an attachment, in general *)

Lemma __cgroup_bpf_update_detach_ok h s n parent P type nov :
  bpf.prog (cgrp_bpf s n) type = Some P ->
  exists s', __cgroup_bpf_update h s n parent None type nov = (Ret0, s').
Proof.
  intros Hown. unfold __cgroup_bpf_update. rewrite Hown. simpl. eauto.
Qed.

(** X10.  After a successful attach at [R], take any cgroup [p] the
    propagation reached ([R] itself is one) and any cgroup [c] that names
    [p] as its parent.  If the attach at [R] was not overridable, every
    attach at [c] is refused with [-EPERM]; if it was overridable, an
    attach at [c] that is not overridable is refused with [-EPERM], and
    an overridable one succeeds when [c] holds no program. *)
Theorem attach_below_attachment h s R parent P1 type m s1 p :
  __cgroup_bpf_update h s R parent (Some P1) type m = (Ret0, s1) ->
  p ∈ update_reached h s R type ->
  forall h' c P2 nov,
    (m && nov = false ->
     __cgroup_bpf_update h' s1 c (Some p) (Some P2) type nov
     = (RetErr EPERM, s1)) /\
    (m && nov = true -> bpf.prog (cgrp_bpf s1 c) type = None ->
     exists s2,
       __cgroup_bpf_update h' s1 c (Some p) (Some P2) type nov = (Ret0, s2)).
Proof.
  intros Hup Hp h' c P2 nov.
  apply __cgroup_bpf_update_Ret0 in Hup as (_ & Hin & _).
  destruct (Hin p Hp) as [He Hd]. simpl in He, Hd.
  split.
  - intros Hm. unfold __cgroup_bpf_update. rewrite He, Hd. simpl.
    destruct m, nov; simpl in *; done.
  - intros Hm Hown. apply andb_true_iff in Hm as [-> ->].
    apply __cgroup_bpf_update_attach_ok; [|done]. right. by rewrite Hd.
Qed.

Lemma attach_below_attachment_witness :
  __cgroup_bpf_update hier4 state_child_root 3%nat (Some 0%nat) (Some 13%nat)
                      0%nat true
  = (RetErr EPERM, state_child_root).
Proof.
  apply (attach_below_attachment hier4 state_child 0%nat None 11%nat 0%nat
           false state_child_root 0%nat).
  - reflexivity.
  - vm_compute. apply elem_of_cons. left. reflexivity.
  - reflexivity.
Defined.

(** ** The inherited state is an invariant *)

(** X11.  In a hierarchy of distinct cgroups, every call made with the
    parent of the cgroup keeps the inherited state: a cgroup without a
    program of its own has the [effective[type]] and the
    [disallow_override[type]] of its parent, and nothing published and
    override allowed at the root. *)
Theorem update_keeps_inherited_state h s n prog type nov r s' :
  NoDup (css_nodes h) ->
  inherited_state h type (cgrp_bpf s) ->
  __cgroup_bpf_update h s n (cgroup_parent h n) prog type nov = (r, s') ->
  inherited_state h type (cgrp_bpf s').
Proof.
  intros Hnd Hinv Hup. destruct r as [|err].
  2:{ by rewrite (__cgroup_bpf_update_error _ _ _ _ _ _ _ _ _ Hup). }
  pose proof (__cgroup_bpf_update_slots _ _ _ _ _ _ _ _ Hup) as (Hn & Hown & _).
  pose proof (__cgroup_bpf_update_Ret0 _ _ _ _ _ _ _ _ Hup) as (Hout & Hin & _).
  assert (Hnr : n ∈ update_reached h s n type).
  { apply css_reached_self, css_descendants_self. }
  assert (Hsame : forall x, x ∉ update_reached h s n type ->
            cgrp_bpf s' x = cgrp_bpf s x).
  { intros x Hx. rewrite (Hout x Hx). rewrite fn_lookup_insert_ne; [done|].
    by intros ->. }
  intros c Hch Hc.
  destruct (decide (c ∈ update_reached h s n type)) as [Hcr|Hcr].
  - destruct (Hin c Hcr) as [-> ->].
    destruct (decide (c = n)) as [->|Hne].
    + rewrite Hc in Hn. subst prog.
      destruct (cgroup_parent h n) as [p|] eqn:Hp; simpl.
      * destruct (cgroup_parent_not_below h n p Hnd Hp) as [Hpn Hbelow].
        rewrite (Hsame p).
        { by rewrite negb_involutive. }
        intros Hpr. apply Hbelow. by eapply css_reached_nodes.
      * done.
    + destruct (update_reached_has_parent h s n type c Hnd Hcr Hne)
        as (p & -> & Hpr).
      by destruct (Hin p Hpr) as [-> ->].
  - rewrite (Hsame c Hcr) in Hc |- *.
    specialize (Hinv c Hch Hc).
    destruct (cgroup_parent h c) as [p|] eqn:Hp; [|done].
    rewrite Hsame; [done|].
    intros Hpr. apply Hcr. by eapply update_reached_child.
Qed.

Lemma update_keeps_inherited_state_witness :
  inherited_state hier4 0%nat (cgrp_bpf state_child).
Proof.
  apply (update_keeps_inherited_state hier4 state_none 1%nat (Some 12%nat)
           0%nat true Ret0 state_child).
  - apply (bool_decide_unpack (NoDup (css_nodes hier4))). vm_compute. exact I.
  - intros c _ _. destruct (cgroup_parent hier4 c); split; reflexivity.
  - reflexivity.
Defined.

(** ** Attach and detach *)

(** In the inherited state, the cgroups the walk from [n] reaches have
    what the top of the walk has, when [n] holds no program. *)
Lemma css_reached_follow h type cg own n pos :
  NoDup (css_nodes h) -> inherited_state h type cg ->
  (forall c, own c = has_prog cg type c) -> has_prog cg type n = false ->
  css_sub pos h ->
  forall c, c ∈ css_reached own n pos ->
    bpf.effective (cg c) type = bpf.effective (cg (css_self pos)) type /\
    bpf.disallow_override (cg c) type
      = bpf.disallow_override (cg (css_self pos)) type.
Proof.
  intros Hnd Hinv Hown Hn.
  induction pos as [d ch IH] using css_tree_ind. intros Hsub c. simpl.
  destruct (own d && negb (bool_decide (d = n))).
  { intros Hc. by apply elem_of_nil in Hc. }
  intros Hc. apply elem_of_cons in Hc as [->|Hc]; [done|].
  apply elem_of_flat_map in Hc as (t & Hin & Hct).
  rewrite list.Forall_forall in IH.
  assert (Hsubt : css_sub t h).
  { eapply css_sub_trans; [|exact Hsub].
    eapply css_sub_child; [exact Hin|constructor]. }
  destruct (IH t Hin Hsubt c Hct) as [-> ->].
  assert (Hnone : bpf.prog (cg (css_self t)) type = None).
  { destruct t as [d' ch']. simpl in *.
    destruct (own d' && negb (bool_decide (d' = n))) eqn:E.
    { by apply elem_of_nil in Hct. }
    apply andb_false_iff in E as [E|E].
    - rewrite Hown in E. unfold has_prog in E.
      by destruct (bpf.prog (cg d') type).
    - apply negb_false_iff, bool_decide_eq_true_1 in E. subst d'.
      unfold has_prog in Hn. by destruct (bpf.prog (cg n) type). }
  pose proof (cgroup_parent_child h d ch t Hnd Hsub Hin) as Hp.
  specialize (Hinv (css_self t)). rewrite Hp in Hinv.
  apply Hinv; [|done].
  eapply css_sub_nodes; [exact Hsubt | apply css_self_nodes].
Qed.

(** X12.  Attach and detach undo each other.  In a hierarchy of distinct
    cgroups that is in the inherited state, after a successful attach at
    a cgroup that held no program, the detach succeeds and every field of
    every cgroup is back to what it was before the attach; the static key
    is back too, and the program has been released. *)
Theorem attach_detach_round_trip h s n P type nov nov' s1 :
  NoDup (css_nodes h) -> n ∈ css_nodes h ->
  inherited_state h type (cgrp_bpf s) ->
  bpf.prog (cgrp_bpf s n) type = None ->
  __cgroup_bpf_update h s n (cgroup_parent h n) (Some P) type nov = (Ret0, s1) ->
  exists s2,
    __cgroup_bpf_update h s1 n (cgroup_parent h n) None type nov' = (Ret0, s2) /\
    (forall c t,
       bpf.prog (cgrp_bpf s2 c) t = bpf.prog (cgrp_bpf s c) t /\
       bpf.effective (cgrp_bpf s2 c) t = bpf.effective (cgrp_bpf s c) t /\
       bpf.disallow_override (cgrp_bpf s2 c) t
         = bpf.disallow_override (cgrp_bpf s c) t /\
       bpf.progs (cgrp_bpf s2 c) t = bpf.progs (cgrp_bpf s c) t /\
       bpf.flags (cgrp_bpf s2 c) t = bpf.flags (cgrp_bpf s c) t) /\
    cgroup_bpf_enabled_key s2 = cgroup_bpf_enabled_key s /\
    bpf_prog_put s2 = P :: bpf_prog_put s.
Proof.
  intros Hnd Hnh Hinv Hnone H1.
  pose proof (__cgroup_bpf_update_slots _ _ _ _ _ _ _ _ H1)
    as (Hn1 & Hown1 & Hpf1 & Hot1).
  pose proof (__cgroup_bpf_update_Ret0 _ _ _ _ _ _ _ _ H1) as (Hout1 & _).
  pose proof (__cgroup_bpf_update_accounting _ _ _ _ _ _ _ _ H1) as [Hk1 Hp1].
  destruct (__cgroup_bpf_update_detach_ok h s1 n (cgroup_parent h n) P type
              nov' Hn1) as [s2 H2].
  exists s2. split; [done|].
  pose proof (__cgroup_bpf_update_slots _ _ _ _ _ _ _ _ H2)
    as (Hn2 & Hown2 & Hpf2 & Hot2).
  pose proof (__cgroup_bpf_update_Ret0 _ _ _ _ _ _ _ _ H2) as (Hout2 & Hin2 & _).
  pose proof (__cgroup_bpf_update_accounting _ _ _ _ _ _ _ _ H2) as [Hk2 Hp2].
  assert (HR : update_reached h s1 n type = update_reached h s n type).
  { unfold update_reached. apply css_reached_ext.
    intros c Hc. unfold has_prog. by rewrite Hown1 by auto. }
  rewrite HR in Hout2, Hin2.
  assert (Hnr : n ∈ update_reached h s n type).
  { apply css_reached_self, css_descendants_self. }
  assert (Hsame1 : forall x, x ∉ update_reached h s n type ->
            cgrp_bpf s1 x = cgrp_bpf s x).
  { intros x Hx. rewrite (Hout1 x Hx). rewrite fn_lookup_insert_ne; [done|].
    by intros ->. }
  assert (Hsame2 : forall x, x ∉ update_reached h s n type ->
            cgrp_bpf s2 x = cgrp_bpf s x).
  { intros x Hx. rewrite (Hout2 x Hx). rewrite fn_lookup_insert_ne.
    - by apply Hsame1.
    - by intros ->. }
  assert (Hfollow : forall c, c ∈ update_reached h s n type ->
    bpf.effective (cgrp_bpf s c) type = bpf.effective (cgrp_bpf s n) type /\
    bpf.disallow_override (cgrp_bpf s c) type
      = bpf.disallow_override (cgrp_bpf s n) type).
  { intros c Hc.
    pose proof (css_reached_follow h type (cgrp_bpf s)
                  (has_prog (cgrp_bpf s) type) n (css_descendants h n)
                  Hnd Hinv) as Hf.
    rewrite css_descendants_self in Hf. apply Hf; auto.
    - unfold has_prog. by rewrite Hnone.
    - by apply css_descendants_sub. }
  split; [|split].
  - intros c t. split; [|split; [|split]].
    + destruct (decide (c = n /\ t = type)) as [[-> ->]|Hne].
      * by rewrite Hn2, Hnone.
      * assert (c <> n \/ t <> type).
        { destruct (decide (c = n)); [right|left]; tauto. }
        by rewrite Hown2, Hown1.
    + destruct (decide (t = type)) as [->|Ht].
      2:{ destruct (Hot2 c t Ht) as [-> _]. by destruct (Hot1 c t Ht) as [-> _]. }
      destruct (decide (c ∈ update_reached h s n type)) as [Hc|Hc].
      2:{ by rewrite (Hsame2 c Hc). }
      destruct (Hin2 c Hc) as [-> _]. destruct (Hfollow c Hc) as [-> _].
      specialize (Hinv n Hnh Hnone).
      destruct (cgroup_parent h n) as [p|] eqn:Hp; simpl.
      * destruct Hinv as [-> _].
        destruct (cgroup_parent_not_below h n p Hnd Hp) as [_ Hbelow].
        rewrite Hsame1; [done|].
        intros Hpr. apply Hbelow. by eapply css_reached_nodes.
      * by destruct Hinv as [-> _].
    + destruct (decide (t = type)) as [->|Ht].
      2:{ destruct (Hot2 c t Ht) as [_ ->]. by destruct (Hot1 c t Ht) as [_ ->]. }
      destruct (decide (c ∈ update_reached h s n type)) as [Hc|Hc].
      2:{ by rewrite (Hsame2 c Hc). }
      destruct (Hin2 c Hc) as [_ ->]. destruct (Hfollow c Hc) as [_ ->].
      specialize (Hinv n Hnh Hnone).
      destruct (cgroup_parent h n) as [p|] eqn:Hp; simpl.
      * destruct Hinv as [_ ->]. rewrite negb_involutive.
        destruct (cgroup_parent_not_below h n p Hnd Hp) as [_ Hbelow].
        rewrite Hsame1; [done|].
        intros Hpr. apply Hbelow. by eapply css_reached_nodes.
      * by destruct Hinv as [_ ->].
    + destruct (Hpf2 c t) as [-> ->]. apply Hpf1.
  - rewrite Hk2, Hk1, Hn1, Hnone. simpl. lia.
  - by rewrite Hp2, Hn1, Hp1, Hnone.
Qed.

Lemma attach_detach_round_trip_witness :
  exists s2,
    __cgroup_bpf_update hier4 state_child 1%nat (cgroup_parent hier4 1%nat)
                        None 0%nat false = (Ret0, s2) /\
    (forall c t,
       bpf.prog (cgrp_bpf s2 c) t = bpf.prog (cgrp_bpf state_none c) t /\
       bpf.effective (cgrp_bpf s2 c) t = bpf.effective (cgrp_bpf state_none c) t /\
       bpf.disallow_override (cgrp_bpf s2 c) t
         = bpf.disallow_override (cgrp_bpf state_none c) t /\
       bpf.progs (cgrp_bpf s2 c) t = bpf.progs (cgrp_bpf state_none c) t /\
       bpf.flags (cgrp_bpf s2 c) t = bpf.flags (cgrp_bpf state_none c) t) /\
    cgroup_bpf_enabled_key s2 = cgroup_bpf_enabled_key state_none /\
    bpf_prog_put s2 = 12%nat :: bpf_prog_put state_none.
Proof.
  apply (attach_detach_round_trip hier4 state_none 1%nat 12%nat 0%nat true
           false state_child).
  - apply (bool_decide_unpack (NoDup (css_nodes hier4))). vm_compute. exact I.
  - simpl. apply elem_of_cons. right. apply elem_of_cons. left. reflexivity.
  - intros c _ _. destruct (cgroup_parent hier4 c); split; reflexivity.
  - reflexivity.
  - reflexivity.
Defined.

(** ** From the attach to the hooks *)

(** X13.  After a successful update at [n], the sock hook for a socket
    of any cgroup the propagation reached ([n] is one) runs, on attach,
    the new program and nothing else, and rejects exactly when its result
    is not [1]; on detach it runs what the parent has published, or
    nothing, accepting, at the root. *)
Theorem update_then_run_filter_sk (run : bpf_prog -> sock -> Z)
    h s n parent prog type nov s' sk :
  __cgroup_bpf_update h s n parent prog type nov = (Ret0, s') ->
  sock_cgroup_ptr sk ∈ update_reached h s n type ->
  __cgroup_bpf_run_filter_sk run (cgrp_bpf s') sk type
  = match prog, parent with
    | Some P, _ => (if run P sk =? 1 then Ret0 else RetErr EPERM, [P])
    | None, Some pa =>
        match bpf.effective (cgrp_bpf s pa) type with
        | Some Q => (if run Q sk =? 1 then Ret0 else RetErr EPERM, [Q])
        | None => (Ret0, [])
        end
    | None, None => (Ret0, [])
    end.
Proof.
  intros Hup Hsk. apply __cgroup_bpf_update_Ret0 in Hup as (_ & Hin & _).
  unfold __cgroup_bpf_run_filter_sk. destruct (Hin _ Hsk) as [-> _].
  by destruct prog, parent.
Qed.

Lemma update_then_run_filter_sk_witness :
  __cgroup_bpf_run_filter_sk run_example (cgrp_bpf state_child) sock_inet 0%nat
  = (RetErr EPERM, [12%nat]).
Proof.
  apply (update_then_run_filter_sk run_example hier4 state_none 1%nat
           (Some 0%nat) (Some 12%nat) 0%nat true state_child sock_inet).
  - reflexivity.
  - vm_compute. apply elem_of_cons. left. reflexivity.
Defined.

(** ** More on the helpers over the ancestors *)

Lemma prog_list_progs_nil head :
  prog_list_progs head = [] <-> forall pl, pl ∈ head -> pl_prog pl = None.
Proof.
  induction head as [|pl head IH]; simpl.
  - split; [|done]. intros _ pl Hpl. by apply elem_of_nil in Hpl.
  - destruct (pl_prog pl) as [prog|] eqn:E.
    + split; [done|]. intros Hall.
      specialize (Hall pl). rewrite elem_of_cons in Hall.
      rewrite Hall in E; [done|auto].
    + rewrite IH. split.
      * intros Hall pl' Hpl'. apply elem_of_cons in Hpl' as [->|Hpl']; auto.
      * intros Hall pl' Hpl'. apply Hall, elem_of_cons. auto.
Qed.

Lemma prog_list_progs_app head1 head2 :
  prog_list_progs (head1 ++ head2)
  = prog_list_progs head1 ++ prog_list_progs head2.
Proof.
  induction head1 as [|pl head1 IH]; simpl; [done|].
  destruct (pl_prog pl); simpl; by rewrite IH.
Qed.

(** X14.  For a list of fewer than [2^32] entries, [prog_list_length] is
    the number of entries that have a program: entries whose program is
    NULL are not counted, the result is [0] exactly when no entry has a
    program, and the length of two lists put together is the sum of
    their lengths. *)
Theorem prog_list_length_counts_programs head :
  Z.of_nat (length head) < 2 ^ 32 ->
  prog_list_length head = Z.of_nat (length (prog_list_progs head)) /\
  0 <= prog_list_length head <= Z.of_nat (length head) /\
  (prog_list_length head = 0 <-> forall pl, pl ∈ head -> pl_prog pl = None) /\
  (forall head1 head2, head = head1 ++ head2 ->
     prog_list_length head = prog_list_length head1 + prog_list_length head2).
Proof.
  intros Hlen. pose proof (prog_list_progs_length head) as Hle.
  assert (Heq : prog_list_length head = Z.of_nat (length (prog_list_progs head))).
  { apply prog_list_length_small. lia. }
  split; [done|]. split; [lia|]. split.
  - rewrite Heq, <- prog_list_progs_nil.
    destruct (prog_list_progs head); simpl; split; (done || lia).
  - intros head1 head2 ->. rewrite length_app in Hlen.
    pose proof (prog_list_progs_length head1).
    pose proof (prog_list_progs_length head2).
    rewrite Heq, prog_list_progs_app, length_app.
    rewrite !prog_list_length_small by lia. lia.
Qed.

Lemma prog_list_length_counts_programs_witness :
  prog_list_length (bpf.progs (store_lists 2%nat) 0%nat) = 1.
Proof.
  apply (prog_list_length_counts_programs (bpf.progs (store_lists 2%nat) 0%nat)).
  simpl. lia.
Defined.

(** X15.  [hierarchy_allows_attach] looks at nothing but the flags words
    and the program lists of the ancestors for the attach type: the
    flags asked for, the cgroup itself and every other field have no
    part in the answer. *)
Theorem hierarchy_allows_attach_reads_ancestors
    BPF_F_ALLOW_OVERRIDE BPF_F_ALLOW_MULTI h cg cg' cgrp type new_flags new_flags' :
  (forall p, p ∈ cgroup_ancestors h cgrp ->
     bpf.flags (cg p) type = bpf.flags (cg' p) type /\
     bpf.progs (cg p) type = bpf.progs (cg' p) type) ->
  hierarchy_allows_attach BPF_F_ALLOW_OVERRIDE BPF_F_ALLOW_MULTI
                          h cg cgrp type new_flags
  = hierarchy_allows_attach BPF_F_ALLOW_OVERRIDE BPF_F_ALLOW_MULTI
                            h cg' cgrp type new_flags'.
Proof.
  unfold hierarchy_allows_attach.
  destruct (cgroup_parent h cgrp); [|done].
  generalize (cgroup_ancestors h cgrp) as ps.
  induction ps as [|p ps IH]; intros Hsame; simpl; [done|].
  destruct (Hsame p) as [-> ->]; [apply elem_of_cons; auto|].
  rewrite IH; [done|]. intros q Hq. apply Hsame, elem_of_cons. auto.
Qed.

Lemma hierarchy_allows_attach_reads_ancestors_witness :
  hierarchy_allows_attach 1 2 hier4 store_lists 2%nat 0%nat 0
  = hierarchy_allows_attach 1 2 hier4
      (<[2%nat := bpf_none]> store_lists) 2%nat 0%nat 3.
Proof.
  apply (hierarchy_allows_attach_reads_ancestors 1 2 hier4 store_lists
           (<[2%nat := bpf_none]> store_lists) 2%nat 0%nat 0 3).
  intros p Hp. vm_compute in Hp.
  apply elem_of_cons in Hp as [->|Hp]; [split; reflexivity|].
  apply elem_of_cons in Hp as [->|Hp]; [split; reflexivity|].
  by apply elem_of_nil in Hp.
Defined.

(** ** More on [compute_effective_progs] *)

Lemma effective_chain_no_multi multi own ps :
  (forall p, p ∈ ps -> multi p = false) ->
  effective_chain multi own false ps = [].
Proof.
  induction ps as [|p ps IH]; intros Hno; simpl; [done|].
  rewrite Hno by (apply elem_of_cons; auto).
  apply IH. intros q Hq. apply Hno, elem_of_cons. auto.
Qed.

Lemma effective_chain_all_multi multi own none_yet ps :
  (forall p, p ∈ ps -> multi p = true) ->
  effective_chain multi own none_yet ps = flat_map own ps.
Proof.
  revert none_yet. induction ps as [|p ps IH]; intros none_yet Hall; simpl;
    [done|].
  rewrite Hall by (apply elem_of_cons; auto). rewrite orb_true_r.
  rewrite IH; [done|]. intros q Hq. apply Hall, elem_of_cons. auto.
Qed.

Lemma effective_chain_own_only multi own c ps :
  own c <> [] -> (forall p, p ∈ ps -> multi p = false) ->
  effective_chain multi own true (c :: ps) = own c.
Proof.
  intros Hown Hno. simpl. destruct (own c) as [|x l]; [done|]. simpl.
  rewrite effective_chain_no_multi by done. by rewrite app_nil_r.
Qed.

(** X16.  A cgroup with no program in its list gets from
    [compute_effective_progs] what its parent gets: the chain is
    inherited whole, whatever the flags of the cgroup and of the
    parent. *)
Theorem compute_effective_progs_inherits
    BPF_F_ALLOW_MULTI may_alloc h cg cgrp p type :
  NoDup (css_nodes h) ->
  cgroup_parent h cgrp = Some p ->
  prog_list_progs (bpf.progs (cg cgrp) type) = [] ->
  Z.of_nat (length
    (effective_chain (cgroup_multi BPF_F_ALLOW_MULTI cg type)
       (cgroup_progs cg type) true (p :: cgroup_ancestors h p))) < 2 ^ 31 ->
  compute_effective_progs BPF_F_ALLOW_MULTI may_alloc h cg cgrp type
  = compute_effective_progs BPF_F_ALLOW_MULTI may_alloc h cg p type.
Proof.
  intros Hnd Hp Hown Hlt. unfold cgroup_parent in Hp.
  destruct (cgroup_ancestors h cgrp) as [|p' rest] eqn:Hanc; [done|].
  injection Hp as ->.
  pose proof (cgroup_ancestors_parent h cgrp p rest Hnd Hanc) as Hrest.
  rewrite Hrest in Hlt.
  assert (Hchain :
    effective_chain (cgroup_multi BPF_F_ALLOW_MULTI cg type)
      (cgroup_progs cg type) true (cgrp :: p :: rest)
    = effective_chain (cgroup_multi BPF_F_ALLOW_MULTI cg type)
        (cgroup_progs cg type) true (p :: rest)).
  { change (effective_chain (cgroup_multi BPF_F_ALLOW_MULTI cg type)
              (cgroup_progs cg type) true (cgrp :: p :: rest))
      with (cgroup_progs cg type cgrp
            ++ effective_chain (cgroup_multi BPF_F_ALLOW_MULTI cg type)
                 (cgroup_progs cg type)
                 (true && (length (cgroup_progs cg type cgrp) =? 0)%nat)
                 (p :: rest)).
    unfold cgroup_progs at 1 3. by rewrite Hown. }
  rewrite !compute_effective_progs_spec.
  - by rewrite Hanc, Hrest, Hchain.
  - by rewrite Hrest.
  - by rewrite Hanc, Hchain.
Qed.

Lemma compute_effective_progs_inherits_witness :
  compute_effective_progs 2 true hier4 store_lists 3%nat 0%nat
  = compute_effective_progs 2 true hier4 store_lists 0%nat 0%nat.
Proof.
  apply (compute_effective_progs_inherits 2 true hier4 store_lists 3%nat
           0%nat 0%nat).
  - apply (bool_decide_unpack (NoDup (css_nodes hier4))). vm_compute. exact I.
  - reflexivity.
  - reflexivity.
  - vm_compute. reflexivity.
Defined.

(** X17.  When no ancestor has the multi flag, a cgroup with programs in
    its list gets from [compute_effective_progs] its own programs and
    nothing else: the programs of the ancestors yield to them. *)
Theorem compute_effective_progs_own_only BPF_F_ALLOW_MULTI h cg cgrp type :
  prog_list_progs (bpf.progs (cg cgrp) type) <> [] ->
  (forall p, p ∈ cgroup_ancestors h cgrp ->
     flag_set (bpf.flags (cg p) type) BPF_F_ALLOW_MULTI = false) ->
  Z.of_nat (length (prog_list_progs (bpf.progs (cg cgrp) type))) < 2 ^ 31 ->
  compute_effective_progs BPF_F_ALLOW_MULTI true h cg cgrp type
  = Some (Ret0, Some (map Some (prog_list_progs (bpf.progs (cg cgrp) type)))).
Proof.
  intros Hown Hno Hlt.
  assert (Hchain :
    effective_chain (cgroup_multi BPF_F_ALLOW_MULTI cg type)
      (cgroup_progs cg type) true (cgrp :: cgroup_ancestors h cgrp)
    = prog_list_progs (bpf.progs (cg cgrp) type)).
  { by apply effective_chain_own_only. }
  rewrite compute_effective_progs_spec; rewrite Hchain; done.
Qed.

Lemma compute_effective_progs_own_only_witness :
  compute_effective_progs 4 true hier4 store_lists 2%nat 0%nat
  = Some (Ret0, Some [Some 12%nat]).
Proof.
  apply (compute_effective_progs_own_only 4 hier4 store_lists 2%nat 0%nat).
  - simpl. discriminate.
  - intros p Hp. vm_compute in Hp.
    apply elem_of_cons in Hp as [->|Hp]; [reflexivity|].
    apply elem_of_cons in Hp as [->|Hp]; [reflexivity|].
    by apply elem_of_nil in Hp.
  - simpl. lia.
Defined.

(** X18.  When every ancestor has the multi flag, the chain of
    [compute_effective_progs] is the programs of the cgroup followed by
    those of every ancestor, nearest first. *)
Theorem compute_effective_progs_stacks BPF_F_ALLOW_MULTI h cg cgrp type :
  (forall p, p ∈ cgroup_ancestors h cgrp ->
     flag_set (bpf.flags (cg p) type) BPF_F_ALLOW_MULTI = true) ->
  Z.of_nat (length
    (flat_map (fun c => prog_list_progs (bpf.progs (cg c) type))
              (cgrp :: cgroup_ancestors h cgrp))) < 2 ^ 31 ->
  compute_effective_progs BPF_F_ALLOW_MULTI true h cg cgrp type
  = Some (Ret0, Some (map Some
      (flat_map (fun c => prog_list_progs (bpf.progs (cg c) type))
                (cgrp :: cgroup_ancestors h cgrp)))).
Proof.
  intros Hall Hlt.
  assert (Hchain :
    effective_chain (cgroup_multi BPF_F_ALLOW_MULTI cg type)
      (cgroup_progs cg type) true (cgrp :: cgroup_ancestors h cgrp)
    = flat_map (fun c => prog_list_progs (bpf.progs (cg c) type))
               (cgrp :: cgroup_ancestors h cgrp)).
  { simpl. rewrite effective_chain_all_multi; [done|].
    intros p Hp. by apply Hall. }
  rewrite compute_effective_progs_spec; rewrite Hchain; done.
Qed.

Lemma compute_effective_progs_stacks_witness :
  compute_effective_progs 2 true hier4 store_lists 1%nat 0%nat
  = Some (Ret0, Some [Some 11%nat; Some 10%nat]).
Proof.
  apply (compute_effective_progs_stacks 2 hier4 store_lists 1%nat 0%nat).
  - intros p Hp. vm_compute in Hp.
    apply elem_of_cons in Hp as [->|Hp]; [reflexivity|].
    by apply elem_of_nil in Hp.
  - vm_compute. reflexivity.
Defined.

(** ** What a program of the skb hook sees *)

(** X19.  For a socket that passes the checks on entry and a cgroup with
    a program published, the skb hook runs that one program on the skb
    with the socket as its owner, the data pointer moved back to the
    network header and the length grown by as much; it rejects exactly
    when the result is not [1], and it hands the skb back as it got it. *)
Theorem run_filter_skb_program_view AF_INET AF_INET6
    (run : bpf_prog -> sk_buff -> Z) cg sk skb type prog :
  sk_fullsock sk = true ->
  sk_family sk = AF_INET \/ sk_family sk = AF_INET6 ->
  bpf.effective (cg (sock_cgroup_ptr sk)) type = Some prog ->
  0 <= skb_data skb - skb_network_header skb ->
  0 <= skb_len skb ->
  skb_len skb + (skb_data skb - skb_network_header skb) < 2 ^ 32 ->
  __cgroup_bpf_run_filter_skb AF_INET AF_INET6 run cg (Some sk) skb type
  = (if run prog
          {| skb_sk := Some sk;
             skb_data := skb_network_header skb;
             skb_len := skb_len skb + (skb_data skb - skb_network_header skb);
             skb_network_header := skb_network_header skb |} =? 1
     then Ret0 else RetErr EPERM,
     [prog], skb).
Proof.
  intros Hfull Hfam Heff Hoff Hlen Hsum.
  unfold __cgroup_bpf_run_filter_skb. rewrite Hfull, Heff. simpl.
  assert (Hguard : negb (sk_family sk =? AF_INET)
                   && negb (sk_family sk =? AF_INET6) = false).
  { destruct Hfam as [->| ->]; rewrite Z.eqb_refl; simpl;
      [done | apply andb_false_r]. }
  rewrite Hguard. destruct skb as [ssk data len nh]. simpl in *.
  unfold __skb_pull, __skb_push, skb_set_sk. simpl.
  rewrite (to_u32_small (data - nh)) by lia.
  rewrite (to_u32_small (len + (data - nh))) by lia.
  replace (data - (data - nh)) with nh by lia.
  replace (nh + (data - nh)) with data by lia.
  replace (len + (data - nh) - (data - nh)) with len by lia.
  rewrite (to_u32_small len) by lia. done.
Qed.

Lemma run_filter_skb_program_view_witness :
  __cgroup_bpf_run_filter_skb 2 10 run_example (cgrp_bpf state_child)
                              (Some sock_inet) skb_example 0%nat
  = (RetErr EPERM, [12%nat], skb_example).
Proof.
  apply (run_filter_skb_program_view 2 10 run_example (cgrp_bpf state_child)
           sock_inet skb_example 0%nat 12%nat).
  - reflexivity.
  - left. reflexivity.
  - reflexivity.
  - simpl. lia.
  - simpl. lia.
  - simpl. lia.
Defined.
